(** * ChatBot: sliding-window chat history and the two-phase answer engine

    A shallow embedding of [chat_db.py] (ChatDatabase), [chatbot.py]
    (VoiceChatbot) and [task5_rag_pipeline.step2_translate], with the
    properties of the written specification stated and settled on it.

    Conventions.
    - A Python [str] is a Rocq [string] holding its UTF-8 bytes; [==],
      [startswith] and [in] on strings are then byte-wise.
    - A Python value that [json.loads] can return is a [pyval].
    - External services (generation, retrieval, speech recognition,
      translation, the clock) are oracles collected in [Env]; every call
      is logged in the trace of the [World].
    - Exceptions are values of [exc] (instances of Exception); code that
      can raise lives in the monad [M].
    - Floating-point values are carried as their literals and never
      computed with. Limits of the interpreter (recursion depth, the
      digit limit of int conversion) and of the database (column sizes)
      are outside the model. *)

From Stdlib Require Import ZArith NArith QArith Ascii String List Bool Lia Sorting.Sorted DecimalN DecimalPos DecimalFacts.

From stdpp Require Import base option list gmap strings sorting.

Local Open Scope Z_scope.

(** * Part I: the model *)

(** ** Python values and the [json] module *)

Module Json.

Unset Elimination Schemes.

Inductive pyval : Type :=
| PNone
| PBool (b : bool)
| PInt (z : Z)
| PFloat (lit : string)   (* a float, kept as its JSON literal *)
| PStr (s : string)
| PList (l : list pyval)
| PDict (d : list (string * pyval)).

Set Elimination Schemes.

(** Characters used by the JSON grammar. *)
Definition dquote : ascii := "034"%char.

Definition bslash : ascii := "\"%char.

Definition chars (s : string) : list ascii := list_ascii_of_string s.

Definition str (l : list ascii) : string := string_of_list_ascii l.

Definition code (c : ascii) : N := N_of_ascii c.

Fixpoint chars_of_uint (d : Decimal.uint) : list ascii :=
  match d with
  | Decimal.Nil => []
  | Decimal.D0 d => "0"%char :: chars_of_uint d
  | Decimal.D1 d => "1"%char :: chars_of_uint d
  | Decimal.D2 d => "2"%char :: chars_of_uint d
  | Decimal.D3 d => "3"%char :: chars_of_uint d
  | Decimal.D4 d => "4"%char :: chars_of_uint d
  | Decimal.D5 d => "5"%char :: chars_of_uint d
  | Decimal.D6 d => "6"%char :: chars_of_uint d
  | Decimal.D7 d => "7"%char :: chars_of_uint d
  | Decimal.D8 d => "8"%char :: chars_of_uint d
  | Decimal.D9 d => "9"%char :: chars_of_uint d
  end.

(** [repr] of a Python int. *)
Definition int_chars (z : Z) : list ascii :=
  (if z <? 0 then ["-"%char] else []) ++ chars_of_uint (N.to_uint (Z.abs_N z)).

Definition hex_char (n : N) : ascii :=
  if (n <? 10)%N then ascii_of_N (48 + n) else ascii_of_N (87 + n).

(** ESCAPE_DCT of [json.encoder]: the quote, the backslash and the
    control characters below 0x20 are escaped, everything else is kept. *)
Definition escape_char (c : ascii) : list ascii :=
  if Ascii.eqb c dquote then [bslash; dquote]
  else if Ascii.eqb c bslash then [bslash; bslash]
  else if Ascii.eqb c "008" then [bslash; "b"%char]
  else if Ascii.eqb c "012" then [bslash; "f"%char]
  else if Ascii.eqb c "010" then [bslash; "n"%char]
  else if Ascii.eqb c "013" then [bslash; "r"%char]
  else if Ascii.eqb c "009" then [bslash; "t"%char]
  else if (code c <? 32)%N then
    [bslash; "u"%char; "0"%char; "0"%char;
     hex_char (code c / 16); hex_char (code c mod 16)]
  else [c].

Definition quote_chars (s : list ascii) : list ascii :=
  dquote :: flat_map escape_char s ++ [dquote].

(** [", ".join] on character lists. *)
Fixpoint join_chars (sep : list ascii) (parts : list (list ascii)) : list ascii :=
  match parts with
  | [] => []
  | [p] => p
  | p :: ps => p ++ sep ++ join_chars sep ps
  end.

Definition item_sep : list ascii := [","%char; " "%char].

Definition key_sep : list ascii := [":"%char; " "%char].

Fixpoint dumps_chars (v : pyval) : list ascii :=
  match v with
  | PNone => chars "null"
  | PBool true => chars "true"
  | PBool false => chars "false"
  | PInt z => int_chars z
  | PFloat lit => chars lit
  | PStr s => quote_chars (chars s)
  | PList l => "["%char :: join_chars item_sep (map dumps_chars l) ++ ["]"%char]
  | PDict d =>
      "{"%char ::
      join_chars item_sep
        (map (fun kv => quote_chars (chars (fst kv)) ++ key_sep ++ dumps_chars (snd kv)) d)
      ++ ["}"%char]
  end.

Definition json_dumps (v : pyval) : string := str (dumps_chars v).

Definition is_ws (c : ascii) : bool :=
  Ascii.eqb c " " || Ascii.eqb c "009" || Ascii.eqb c "010" || Ascii.eqb c "013".

Fixpoint skip_ws (s : list ascii) : list ascii :=
  match s with
  | c :: r => if is_ws c then skip_ws r else s
  | [] => []
  end.

Definition is_digit (c : ascii) : bool :=
  (48 <=? code c)%N && (code c <=? 57)%N.

Definition digit_of_char (c : ascii) : option (Decimal.uint -> Decimal.uint) :=
  if Ascii.eqb c "0" then Some Decimal.D0
  else if Ascii.eqb c "1" then Some Decimal.D1
  else if Ascii.eqb c "2" then Some Decimal.D2
  else if Ascii.eqb c "3" then Some Decimal.D3
  else if Ascii.eqb c "4" then Some Decimal.D4
  else if Ascii.eqb c "5" then Some Decimal.D5
  else if Ascii.eqb c "6" then Some Decimal.D6
  else if Ascii.eqb c "7" then Some Decimal.D7
  else if Ascii.eqb c "8" then Some Decimal.D8
  else if Ascii.eqb c "9" then Some Decimal.D9
  else None.

(** The longest run of decimal digits at the head of [s] (the ASCII
    digits, as in the C scanner the interpreter uses). *)
Fixpoint lex_uint (s : list ascii) : Decimal.uint * list ascii :=
  match s with
  | c :: r =>
      match digit_of_char c with
      | Some mk => let '(d, r') := lex_uint r in (mk d, r')
      | None => (Decimal.Nil, s)
      end
  | [] => (Decimal.Nil, [])
  end.

(** Integer part of NUMBER_RE: [0|[1-9][0-9]*]. *)
Definition lex_intpart (s : list ascii) : option (Decimal.uint * list ascii) :=
  match s with
  | c :: r =>
      if Ascii.eqb c "0" then Some (Decimal.D0 Decimal.Nil, r)
      else if is_digit c then Some (lex_uint s)
      else None
  | [] => None
  end.

(** Fraction part [(\.[0-9]+)?]: the characters matched and the rest. *)
Definition lex_frac (s : list ascii) : list ascii * list ascii :=
  match s with
  | c :: d :: r =>
      if Ascii.eqb c "." && is_digit d then
        let '(ds, r') := lex_uint (d :: r) in (c :: chars_of_uint ds, r')
      else ([], s)
  | _ => ([], s)
  end.

(** Exponent part [([eE][-+]?[0-9]+)?]. *)
Definition lex_exp (s : list ascii) : list ascii * list ascii :=
  match s with
  | e :: r =>
      if Ascii.eqb e "e" || Ascii.eqb e "E" then
        let '(sign, r1) :=
          match r with
          | g :: r1 => if Ascii.eqb g "-" || Ascii.eqb g "+" then ([g], r1) else ([], r)
          | [] => ([], r)
          end in
        match lex_uint r1 with
        | (Decimal.Nil, _) => ([], s)
        | (ds, r2) => (e :: sign ++ chars_of_uint ds, r2)
        end
      else ([], s)
  | [] => ([], s)
  end.

(** match_number of the scanner: an int when there is neither fraction
    nor exponent, a float otherwise. *)
Definition match_number (s : list ascii) : option (pyval * list ascii) :=
  let '(neg, s1) :=
    match s with
    | c :: r => if Ascii.eqb c "-" then (true, r) else (false, s)
    | [] => (false, s)
    end in
  match lex_intpart s1 with
  | None => None
  | Some (d, r1) =>
      let '(frac, r2) := lex_frac r1 in
      let '(ex, r3) := lex_exp r2 in
      match frac, ex with
      | [], [] =>
          let n := Z.of_N (N.of_uint d) in
          Some (PInt (if neg then - n else n), r3)
      | _, _ =>
          Some (PFloat (str ((if neg then ["-"%char] else []) ++ chars_of_uint d ++ frac ++ ex)), r3)
      end
  end.

Definition hex_val (c : ascii) : option N :=
  let n := code c in
  if (48 <=? n)%N && (n <=? 57)%N then Some (n - 48)%N
  else if (97 <=? n)%N && (n <=? 102)%N then Some (n - 87)%N
  else if (65 <=? n)%N && (n <=? 70)%N then Some (n - 55)%N
  else None.

Definition hex4 (a b c d : ascii) : option N :=
  match hex_val a, hex_val b, hex_val c, hex_val d with
  | Some x, Some y, Some z, Some w => Some (((x * 16 + y) * 16 + z) * 16 + w)%N
  | _, _, _, _ => None
  end.

(** [chr(uni)] as UTF-8 bytes (a lone surrogate keeps its three-byte form). *)
Definition utf8_encode (n : N) : list ascii :=
  if (n <? 128)%N then [ascii_of_N n]
  else if (n <? 2048)%N then
    [ascii_of_N (192 + n / 64); ascii_of_N (128 + n mod 64)]
  else if (n <? 65536)%N then
    [ascii_of_N (224 + n / 4096); ascii_of_N (128 + (n / 64) mod 64);
     ascii_of_N (128 + n mod 64)]
  else
    [ascii_of_N (240 + n / 262144); ascii_of_N (128 + (n / 4096) mod 64);
     ascii_of_N (128 + (n / 64) mod 64); ascii_of_N (128 + n mod 64)].

Definition is_high_surrogate (n : N) : bool := (55296 <=? n)%N && (n <=? 56319)%N.

Definition is_low_surrogate (n : N) : bool := (56320 <=? n)%N && (n <=? 57343)%N.

(** BACKSLASH table of [json.decoder]. *)
Definition unescape (e : ascii) : option ascii :=
  if Ascii.eqb e dquote then Some dquote
  else if Ascii.eqb e bslash then Some bslash
  else if Ascii.eqb e "/" then Some "/"%char
  else if Ascii.eqb e "b" then Some "008"%char
  else if Ascii.eqb e "f" then Some "012"%char
  else if Ascii.eqb e "n" then Some "010"%char
  else if Ascii.eqb e "r" then Some "013"%char
  else if Ascii.eqb e "t" then Some "009"%char
  else None.

Definition cons_chars (cs : list ascii) (o : option (list ascii * list ascii)) :
    option (list ascii * list ascii) :=
  match o with
  | Some (body, r) => Some (cs ++ body, r)
  | None => None
  end.

(** scanstring (strict): [s] starts just after the opening quote. *)
Fixpoint scanstring (s : list ascii) : option (list ascii * list ascii) :=
  match s with
  | [] => None
  | c :: r =>
      if Ascii.eqb c dquote then Some ([], r)
      else if Ascii.eqb c bslash then
        match r with
        | [] => None
        | e :: r1 =>
            if Ascii.eqb e "u" then
              match r1 with
              | h1 :: h2 :: h3 :: h4 :: r2 =>
                  match hex4 h1 h2 h3 h4 with
                  | None => None
                  | Some uni =>
                      if is_high_surrogate uni then
                        (* a following \uXXXX low surrogate completes the pair *)
                        match r2 with
                        | b :: u :: g1 :: g2 :: g3 :: g4 :: r3 =>
                            if Ascii.eqb b bslash && Ascii.eqb u "u" then
                              match hex4 g1 g2 g3 g4 with
                              | None => None
                              | Some uni2 =>
                                  if is_low_surrogate uni2 then
                                    cons_chars
                                      (utf8_encode
                                         (65536 + (uni - 55296) * 1024 + (uni2 - 56320))%N)
                                      (scanstring r3)
                                  else cons_chars (utf8_encode uni) (scanstring r2)
                              end
                            else cons_chars (utf8_encode uni) (scanstring r2)
                        | _ => cons_chars (utf8_encode uni) (scanstring r2)
                        end
                      else cons_chars (utf8_encode uni) (scanstring r2)
                  end
              | _ => None
              end
            else
              match unescape e with
              | Some x => cons_chars [x] (scanstring r1)
              | None => None
              end
        end
      else if (code c <? 32)%N then None
      else cons_chars [c] (scanstring r)
  end.

(** [dict(pairs)]: a later pair with a key already present replaces the
    value and keeps the position of the first occurrence. *)
Fixpoint dict_set (d : list (string * pyval)) (k : string) (v : pyval) :
    list (string * pyval) :=
  match d with
  | [] => [(k, v)]
  | (k', v') :: d' =>
      if String.eqb k' k then (k', v) :: d' else (k', v') :: dict_set d' k v
  end.

Definition py_dict (pairs : list (string * pyval)) : list (string * pyval) :=
  fold_left (fun d kv => dict_set d (fst kv) (snd kv)) pairs [].

(** [s[idx:idx+len(p)] == p], returning what follows the match. *)
Fixpoint starts_with (p s : list ascii) : option (list ascii) :=
  match p, s with
  | [], _ => Some s
  | a :: p', b :: s' => if Ascii.eqb a b then starts_with p' s' else None
  | _ :: _, [] => None
  end.

(** scan_once, JSONArray and JSONObject of the scanner. [n] bounds the
    nesting; [json_loads] passes a bound the input cannot exceed
    ([scan_once_any_bound] below). *)
Fixpoint scan_once (n : nat) (s : list ascii) {struct n} : option (pyval * list ascii) :=
  match n with
  | O => None
  | S n' =>
      match s with
      | [] => None
      | c :: r =>
          if Ascii.eqb c dquote then
            match scanstring r with
            | Some (body, r') => Some (PStr (str body), r')
            | None => None
            end
          else if Ascii.eqb c "{" then
            match skip_ws r with
            | c1 :: r1 =>
                if Ascii.eqb c1 "}" then Some (PDict [], r1)
                else if Ascii.eqb c1 dquote then parse_pairs n' r1 []
                else None
            | [] => None
            end
          else if Ascii.eqb c "[" then
            match skip_ws r with
            | c1 :: r1 =>
                if Ascii.eqb c1 "]" then Some (PList [], r1)
                else parse_items n' (c1 :: r1) []
            | [] => None
            end
          else
            match starts_with (chars "null") s with
            | Some r' => Some (PNone, r')
            | None =>
            match starts_with (chars "true") s with
            | Some r' => Some (PBool true, r')
            | None =>
            match starts_with (chars "false") s with
            | Some r' => Some (PBool false, r')
            | None =>
            match match_number s with
            | Some res => Some res
            | None =>
            match starts_with (chars "NaN") s with
            | Some r' => Some (PFloat "NaN", r')
            | None =>
            match starts_with (chars "Infinity") s with
            | Some r' => Some (PFloat "Infinity", r')
            | None =>
            match starts_with (chars "-Infinity") s with
            | Some r' => Some (PFloat "-Infinity", r')
            | None => None
            end end end end end end end
      end
  end
with parse_items (n : nat) (s : list ascii) (acc : list pyval) {struct n} :
    option (pyval * list ascii) :=
  match n with
  | O => None
  | S n' =>
      match scan_once n' s with
      | None => None
      | Some (v, r) =>
          match skip_ws r with
          | c :: r' =>
              if Ascii.eqb c "]" then Some (PList (rev (v :: acc)), r')
              else if Ascii.eqb c "," then parse_items n' (skip_ws r') (v :: acc)
              else None
          | [] => None
          end
      end
  end
with parse_pairs (n : nat) (s : list ascii) (acc : list (string * pyval)) {struct n} :
    option (pyval * list ascii) :=
  (* [s] starts just after the opening quote of a key *)
  match n with
  | O => None
  | S n' =>
      match scanstring s with
      | None => None
      | Some (key, r) =>
          match skip_ws r with
          | c :: r1 =>
              if Ascii.eqb c ":" then
                match scan_once n' (skip_ws r1) with
                | None => None
                | Some (v, r2) =>
                    match skip_ws r2 with
                    | c2 :: r3 =>
                        if Ascii.eqb c2 "}" then
                          Some (PDict (py_dict (rev ((str key, v) :: acc))), r3)
                        else if Ascii.eqb c2 "," then
                          match skip_ws r3 with
                          | c3 :: r4 =>
                              if Ascii.eqb c3 dquote
                              then parse_pairs n' r4 ((str key, v) :: acc)
                              else None
                          | [] => None
                          end
                        else None
                    | [] => None
                    end
                end
              else None
          | [] => None
          end
      end
  end.

(** [json.loads]: [None] stands for [json.JSONDecodeError]. *)
Definition json_loads (s : string) : option pyval :=
  let cs := skip_ws (chars s) in
  match scan_once (S (length cs)) cs with
  | Some (v, r) => match skip_ws r with [] => Some v | _ :: _ => None end
  | None => None
  end.

(** *** Notions used to state that [json.loads] inverts [json.dumps] *)

(** Values for which the round trip is stated: no floats, and every dict
    (at any depth) has pairwise distinct keys, as a Python dict has. *)
Fixpoint json_able (v : pyval) : bool :=
  match v with
  | PFloat _ => false
  | PList l => forallb json_able l
  | PDict d =>
      bool_decide (NoDup (map fst d)) && forallb (fun kv => json_able (snd kv)) d
  | _ => true
  end.

(** Nesting bound that [scan_once] needs for a value. *)
Fixpoint fuel (v : pyval) : nat :=
  match v with
  | PList l => S (list_sum (map (fun x => S (fuel x)) l))
  | PDict d => S (list_sum (map (fun kv => S (fuel (snd kv))) d))
  | _ => 1%nat
  end.

Section pyval_ind.

Variable P : pyval -> Prop.

Hypothesis HNone : P PNone.

Hypothesis HBool : forall b, P (PBool b).

Hypothesis HInt : forall z, P (PInt z).

Hypothesis HFloat : forall lit, P (PFloat lit).

Hypothesis HStr : forall s, P (PStr s).

Hypothesis HList : forall l, Forall P l -> P (PList l).

Hypothesis HDict : forall d, Forall (fun kv => P (snd kv)) d -> P (PDict d).

Fixpoint pyval_ind (v : pyval) : P v :=
  match v with
  | PNone => HNone
  | PBool b => HBool b
  | PInt z => HInt z
  | PFloat lit => HFloat lit
  | PStr s => HStr s
  | PList l =>
      HList l ((fix go (l : list pyval) : Forall P l :=
                  match l with
                  | [] => @List.Forall_nil _ P
                  | x :: l' => @List.Forall_cons _ P x l' (pyval_ind x) (go l')
                  end) l)
  | PDict d =>
      HDict d ((fix go (d : list (string * pyval)) : Forall (fun kv => P (snd kv)) d :=
                  match d with
                  | [] => @List.Forall_nil _ _
                  | kv :: d' => @List.Forall_cons _ _ kv d' (pyval_ind (snd kv)) (go d')
                  end) d)
  end.

End pyval_ind.

(** What may follow a number without being read as part of it. *)
Definition num_stop (rest : list ascii) : bool :=
  match rest with
  | [] => true
  | c :: _ => negb (is_digit c || Ascii.eqb c "." || Ascii.eqb c "e" || Ascii.eqb c "E")
  end.

(** The first character of a serialised value: never white space, never
    a closing bracket. *)
Definition value_head (s : list ascii) : Prop :=
  match s with
  | c :: _ => is_ws c = false /\ Ascii.eqb c "]" = false
  | [] => False
  end.

Definition dumps_pair (kv : string * pyval) : list ascii :=
  quote_chars (chars (fst kv)) ++ key_sep ++ dumps_chars (snd kv).

(** A printed pair after the opening quote of its key, and a printed
    sequence of pairs up to the closing brace. *)
Definition pair_tail (kv : string * pyval) : list ascii :=
  flat_map escape_char (chars (fst kv))
  ++ dquote :: ":"%char :: " "%char :: dumps_chars (snd kv).

Fixpoint pairs_tail (d : list (string * pyval)) (rest : list ascii) : list ascii :=
  match d with
  | [] => rest
  | [kv] => pair_tail kv ++ "}"%char :: rest
  | kv :: d' => pair_tail kv ++ ","%char :: " "%char :: dquote :: pairs_tail d' rest
  end.

(** What [scan_once] is shown to do on a serialised value. *)
Definition scans_back (v : pyval) : Prop :=
  json_able v = true ->
  forall n rest, (fuel v <= n)%nat -> num_stop rest = true ->
  scan_once n (dumps_chars v ++ rest) = Some (v, rest).

End Json.

Import Json.

(** ** Exceptions and the effect monad *)

Inductive exc_class : Type :=
| JSONDecodeError
| TypeError
| KeyError
| ValueError
| RuntimeError
| IntegrityError
| OtherError (name : string).

Unset Elimination Schemes.

Inductive exc : Type :=
| Exc (cls : exc_class) (msg : string) (cause : option exc).

Set Elimination Schemes.

Definition exc_cls (e : exc) : exc_class := let 'Exc c _ _ := e in c.

Definition exc_msg (e : exc) : string := let 'Exc _ m _ := e in m.

Definition exc_cause (e : exc) : option exc := let 'Exc _ _ c := e in c.

(** [isinstance(e, json.JSONDecodeError)] *)
Definition is_JSONDecodeError (e : exc) : bool :=
  match exc_cls e with JSONDecodeError => true | _ => false end.

(** Rows of the two tables of [chat_db.py]. Times are abstract instants. *)
Inductive message_role : Type := user | assistant.

Module ChatSession.

Record t : Type := mk { id : string; created_at : Z; updated_at : Z }.

End ChatSession.

Module ChatMessage.

Record t : Type := mk {
  id : Z;
  session_id : string;
  role : message_role;
  content : string;
  metadata_json : option string;
  created_at : Z
}.

End ChatMessage.

(** A retrieved chunk, as built by [query_vector_db]. *)
Module Chunk.

Record t : Type := mk { text : string; metadata : pyval; distance : Q }.

End Chunk.

(** The arguments of [chat.completions.create]. *)
Record completion_request : Type := {
  req_messages : list (string * string);   (* role, content *)
  req_model : string;
  req_temperature : Q;
  req_max_tokens : Z
}.

(** Calls of the collaborators, in the order they are made. *)
Inductive event : Type :=
| EvTranscribe (audio_path : string)
| EvTranslate (text source_language_code : string)
| EvGenerate (req : completion_request)
| EvRetrieve (query : string) (top_k : nat).

Record World : Type := {
  sessions : gmap string ChatSession.t;
  messages : list ChatMessage.t;      (* in insertion order *)
  next_id : Z;                         (* AUTO_INCREMENT of messages.id *)
  ticks : nat;                         (* clock readings so far *)
  trace : list event
}.

(** The collaborators. A service may answer differently as the
    conversation with the outside world grows, so each oracle sees the
    trace; the last two fields describe the database backend: whether it
    enforces the declared foreign key, and what binding a value that is
    not a [str] to the Text column [content] does. *)
Record Env : Type := {
  clock : nat -> Z;
  chat_completion : list event -> completion_request -> exc + string;
  query_vector_db : list event -> string -> nat -> exc + list Chunk.t;
  asr_transcribe : list event -> string -> exc + string;
  translate_to_english : list event -> string -> string -> exc + string;
  fk_enforced : bool;
  bind_nonstr : pyval -> exc + string
}.

Inductive res (A : Type) : Type :=
| Ok (a : A) (w : World)
| Raise (e : exc) (w : World).

Arguments Ok {A} a w.

Arguments Raise {A} e w.

Definition M (A : Type) : Type := World -> res A.

Definition ret {A} (a : A) : M A := fun w => Ok a w.

Definition raise {A} (e : exc) : M A := fun w => Raise e w.

Definition bind {A B} (m : M A) (k : A -> M B) : M B :=
  fun w => match m w with
           | Ok a w' => k a w'
           | Raise e w' => Raise e w'
           end.

(** [try: m except Exception as e: h e] *)
Definition try_except {A} (m : M A) (h : exc -> M A) : M A :=
  fun w => match m w with
           | Ok a w' => Ok a w'
           | Raise e w' => h e w'
           end.

Definition lift_sum {A} (r : exc + A) : M A :=
  match r with inl e => raise e | inr a => ret a end.

(** The world after one more call of a collaborator. *)
Definition log (ev : event) (w : World) : World :=
  {| sessions := sessions w; messages := messages w;
     next_id := next_id w; ticks := ticks w; trace := trace w ++ [ev] |}.

Definition emit (ev : event) : M unit := fun w => Ok tt (log ev w).

Definition final_world {A} (r : res A) : World :=
  match r with Ok _ w => w | Raise _ w => w end.

Declare Scope M_scope.

Delimit Scope M_scope with M.

Notation "x <- m ; k" := (bind m (fun x => k))
  (at level 20, m at level 100, k at level 200, only parsing) : M_scope.

Notation "' pat <- m ; k" := (bind m (fun x => match x with pat => k end))
  (at level 20, pat pattern, m at level 100, k at level 200, only parsing) : M_scope.

Notation "m >> k" := (bind m (fun _ => k))
  (at level 100, k at level 200, right associativity, only parsing) : M_scope.

Local Open Scope M_scope.

Local Open Scope string_scope.

(** ** The order a query returns its rows in

    [ORDER BY created_at] fixes the order of rows with different
    timestamps only; among rows with equal timestamps the database is
    free. An engine is any pair of orderings that meet this contract. *)

Definition created_le (a b : ChatMessage.t) : Prop :=
  (ChatMessage.created_at a <= ChatMessage.created_at b)%Z.

Class QueryEngine : Type := {
  order_by_created_at_asc : list ChatMessage.t -> list ChatMessage.t;
  order_by_created_at_desc : list ChatMessage.t -> list ChatMessage.t;
  asc_Permutation : forall l, order_by_created_at_asc l ≡ₚ l;
  asc_Sorted : forall l, Sorted created_le (order_by_created_at_asc l);
  desc_Permutation : forall l, order_by_created_at_desc l ≡ₚ l;
  desc_Sorted : forall l, Sorted (flip created_le) (order_by_created_at_desc l)
}.

#[export] Instance created_le_dec : RelDecision created_le.
Proof. intros a b. unfold created_le. apply _. Defined.

#[export] Instance created_le_trans : Transitive created_le.
Proof. intros a b c. unfold created_le. lia. Qed.

#[export] Instance created_le_total : Total created_le.
Proof. intros a b. unfold created_le. lia. Qed.

#[export] Instance created_ge_total : Total (flip created_le).
Proof. intros a b. unfold flip, created_le. lia. Qed.

(** An engine built on merge sort. On the stores of [Scenario] it returns
    rows with equal timestamps in primary-key (insertion) order,
    whichever direction is asked for. *)
#[export] Instance insertion_order_engine : QueryEngine := {|
  order_by_created_at_asc := merge_sort created_le;
  order_by_created_at_desc := merge_sort (flip created_le);
  asc_Permutation := merge_sort_Permutation created_le;
  asc_Sorted := Sorted_merge_sort created_le;
  desc_Permutation := merge_sort_Permutation (flip created_le);
  desc_Sorted := Sorted_merge_sort (flip created_le)
|}.

(** ** Python operators on values *)

Definition q : string := String dquote EmptyString.

Fixpoint is_substring (needle hay : string) : bool :=
  String.prefix needle hay ||
  match hay with
  | EmptyString => false
  | String _ hay' => is_substring needle hay'
  end.

Definition type_name (v : pyval) : string :=
  match v with
  | PNone => "NoneType" | PBool _ => "bool" | PInt _ => "int" | PFloat _ => "float"
  | PStr _ => "str" | PList _ => "list" | PDict _ => "dict"
  end.

Definition dict_get (d : list (string * pyval)) (k : string) : option pyval :=
  snd <$> List.find (fun kv => String.eqb (fst kv) k) d.

(** [key in v] for a [str] key; the message of the TypeError is that of
    CPython 3.12. *)
Definition py_contains (key : string) (v : pyval) : exc + bool :=
  match v with
  | PDict d => inr (match dict_get d key with Some _ => true | None => false end)
  | PList l =>
      inr (existsb (fun x => match x with PStr s => String.eqb s key | _ => false end) l)
  | PStr s => inr (is_substring key s)
  | _ => inl (Exc TypeError
                ("argument of type '" ++ type_name v ++ "' is not iterable") None)
  end.

(** [v[key]] for a [str] key. *)
Definition py_getitem (v : pyval) (key : string) : exc + pyval :=
  match v with
  | PDict d =>
      match dict_get d key with
      | Some x => inr x
      | None => inl (Exc KeyError ("'" ++ key ++ "'") None)
      end
  | PList _ =>
      inl (Exc TypeError "list indices must be integers or slices, not str" None)
  | PStr _ => inl (Exc TypeError "string indices must be integers, not 'str'" None)
  | _ => inl (Exc TypeError ("'" ++ type_name v ++ "' object is not subscriptable") None)
  end.

(** [v == s] for a [str] s. *)
Definition py_eq_str (v : pyval) (s : string) : bool :=
  match v with PStr s' => String.eqb s' s | _ => false end.

Definition str_of_nat (n : nat) : string := str (int_chars (Z.of_nat n)).

(** [sep.join(parts)] *)
Fixpoint join (sep : string) (parts : list string) : string :=
  match parts with
  | [] => ""
  | [p] => p
  | p :: ps => p ++ sep ++ join sep ps
  end.

(** ** Configuration ([utils/config.py]) and prompts *)

Definition LLM_MODEL_NAME : string := "llama-3.3-70b-versatile".

Definition TOP_K_RETRIEVAL : nat := 2.

Definition SLIDING_WINDOW_SIZE : nat := 10.

Definition nl : string := String "010" EmptyString.

Definition HISTORY_PROMPT : string :=
  "You are a helpful assistant that answers questions using conversation history.

You will be given the recent conversation history and a new user question.
Try to answer the question using ONLY the information available in the conversation history.

IMPORTANT: You MUST respond with a valid JSON object in one of these two formats:

If you CAN answer from the conversation history:
{" ++ q ++ "status" ++ q ++ ": " ++ q ++ "success" ++ q ++ ", " ++ q ++ "content" ++ q ++ ": " ++ q ++ "<your answer here>" ++ q ++ "}

If you CANNOT answer because the history doesn't contain enough information:
{" ++ q ++ "status" ++ q ++ ": " ++ q ++ "failure" ++ q ++ ", " ++ q ++ "content" ++ q ++ ": " ++ q ++ "Need more context" ++ q ++ "}

Rules:
- Only return the JSON object, nothing else.
- Do NOT make up information not present in the history.
- If the question is a follow-up that can be answered from prior messages, return success.
- If the question is about something not discussed before, return failure.".

Definition RETRIEVAL_PROMPT : string :=
  "You are a helpful assistant that answers questions based on the provided context.

You will be given:
1. Recent conversation history (for follow-up context)
2. Retrieved information from a knowledge base

Use the retrieved information to answer the question. You may also use the
conversation history for understanding context. Keep your answer concise and accurate.
If the answer is not in the provided information, say so.".

(** ** [chat_db.py]: ChatDatabase *)

Module Turn.

(** An element of the list returned by [get_recent_messages]. *)
Record t : Type := mk { role : message_role; content : string }.

End Turn.

Module HistoryEntry.

(** An element of the list returned by [get_session_history]; the
    [metadata] is a Python value, [PNone] when the column is empty. *)
Record t : Type := mk {
  id : Z;
  role : message_role;
  content : string;
  metadata : pyval;
  created_at : Z
}.

End HistoryEntry.

Definition of_session (session_id : string) (l : list ChatMessage.t) : list ChatMessage.t :=
  filter (fun m => ChatMessage.session_id m = session_id) l.

Definition turn_of_message (m : ChatMessage.t) : Turn.t :=
  Turn.mk (ChatMessage.role m) (ChatMessage.content m).


Section Engine.

Context {QE : QueryEngine} (env : Env).

(** [datetime.now(timezone.utc)] *)
Definition now : M Z :=
  fun w => Ok (clock env (ticks w))
              {| sessions := sessions w; messages := messages w;
                 next_id := next_id w; ticks := S (ticks w); trace := trace w |}.

(** What the driver stores in the Text column for a bound value. *)
Definition bind_text (v : pyval) : exc + string :=
  match v with
  | PStr s => inr s
  | _ => bind_nonstr env v
  end.

(** The INSERT of the pending message. It is flushed when the session
    is looked up (the ORM session autoflushes before a query); a
    backend that enforces the foreign key refuses a row whose session
    does not exist. Nothing is written when it fails. *)
Definition flush_insert (session_id : string) (role : message_role) (content : pyval)
    (metadata_json : option string) : M ChatMessage.t :=
  text <- lift_sum (bind_text content) ;
  fun w =>
    if fk_enforced env && negb (bool_decide (is_Some (sessions w !! session_id)))
    then Raise (Exc IntegrityError "a foreign key constraint fails" None) w
    else
      (created <- now ;
       fun w =>
         let msg := ChatMessage.mk (next_id w) session_id role text metadata_json created in
         Ok msg {| sessions := sessions w; messages := messages w ++ [msg];
                   next_id := (next_id w + 1)%Z; ticks := ticks w; trace := trace w |}) w.

(** [db.query(ChatSession).filter_by(id=session_id).first()] *)
Definition query_session (session_id : string) : M (option ChatSession.t) :=
  fun w => Ok (sessions w !! session_id) w.

(** [sess.updated_at = datetime.now(timezone.utc)] *)
Definition set_updated_at (sess : ChatSession.t) : M unit :=
  t <- now ;
  fun w =>
    Ok tt {| sessions := <[ChatSession.id sess :=
                            ChatSession.mk (ChatSession.id sess)
                              (ChatSession.created_at sess) t]> (sessions w);
             messages := messages w; next_id := next_id w;
             ticks := ticks w; trace := trace w |}.

(** The two statements under the comment "Touch the session's updated_at". *)
Definition touch_session (session_id : string) : M unit :=
  sess <- query_session session_id ;
  match sess with
  | Some s => set_updated_at s
  | None => ret tt
  end.

(** [json.dumps(metadata, ensure_ascii=False) if metadata else None] *)
Definition dump_metadata (metadata : option (list (string * pyval))) : option string :=
  match metadata with
  | Some [] | None => None        (* an empty dict is falsy *)
  | Some d => Some (json_dumps (PDict d))
  end.

Definition add_message (session_id : string) (role : message_role) (content : pyval)
    (metadata : option (list (string * pyval))) : M Z :=
  msg <- flush_insert session_id role content (dump_metadata metadata) ;
  touch_session session_id >>
  ret (ChatMessage.id msg).

(** [msgs] of [get_recent_messages] after [msgs.reverse()]. *)
Definition recent_rows (session_id : string) (limit : nat) (w : World) : list ChatMessage.t :=
  reverse (take limit (order_by_created_at_desc (of_session session_id (messages w)))).

Definition get_recent_messages (session_id : string) (limit : nat) : M (list Turn.t) :=
  fun w => Ok (map turn_of_message (recent_rows session_id limit w)) w.

(** [json.loads(m.metadata_json) if m.metadata_json else None] *)
Definition load_metadata (metadata_json : option string) : exc + pyval :=
  match metadata_json with
  | None | Some EmptyString => inr PNone
  | Some s =>
      match json_loads s with
      | Some v => inr v
      | None => inl (Exc JSONDecodeError "Expecting value" None)
      end
  end.

Definition entry_of_message (m : ChatMessage.t) : exc + HistoryEntry.t :=
  match load_metadata (ChatMessage.metadata_json m) with
  | inl e => inl e
  | inr md =>
      inr (HistoryEntry.mk (ChatMessage.id m) (ChatMessage.role m) (ChatMessage.content m)
             md (ChatMessage.created_at m))
  end.

(** A list comprehension whose element expression may raise. *)
Fixpoint map_sum {A B} (f : A -> exc + B) (l : list A) : exc + list B :=
  match l with
  | [] => inr []
  | x :: l' =>
      match f x with
      | inl e => inl e
      | inr y => match map_sum f l' with inl e => inl e | inr ys => inr (y :: ys) end
      end
  end.

Definition history_rows (session_id : string) (w : World) : list ChatMessage.t :=
  order_by_created_at_asc (of_session session_id (messages w)).

Definition get_session_history (session_id : string) : M (list HistoryEntry.t) :=
  fun w => lift_sum (map_sum entry_of_message (history_rows session_id w)) w.

(** ** [task5_rag_pipeline.py]: the pipeline steps used by the chatbot *)

(** [step1_transcribe] as a whole (the check that the file exists, the
    exchange with the ASR server, the extraction of the text) is the
    oracle [asr_transcribe]; likewise [translate_to_english], and
    [query_vector_db] behind [step3_retrieve]. *)
Definition step1_transcribe (audio_path : string) : M string :=
  emit (EvTranscribe audio_path) >>
  fun w => lift_sum (asr_transcribe env (trace w) audio_path) w.

Definition call_translate_to_english (text source_language_code : string) : M string :=
  emit (EvTranslate text source_language_code) >>
  fun w => lift_sum (translate_to_english env (trace w) text source_language_code) w.

Definition step2_translate (text source_language : string) : M string :=
  if String.prefix "en" source_language then ret text
  else call_translate_to_english text source_language.

Definition step3_retrieve (query : string) (top_k : nat) : M (list Chunk.t) :=
  emit (EvRetrieve query top_k) >>
  fun w => lift_sum (query_vector_db env (trace w) query top_k) w.

(** ** [chatbot.py]: VoiceChatbot *)

(** [self._get_client().chat.completions.create(...)] followed by
    [response.choices[0].message.content.strip()]. *)
Definition create_completion (req : completion_request) : M string :=
  emit (EvGenerate req) >>
  fun w => lift_sum (chat_completion env (trace w) req) w.

Definition _format_history (history : list Turn.t) : string :=
  join nl
    (map (fun m => (match Turn.role m with user => "User" | assistant => "Assistant" end)
                   ++ ": " ++ Turn.content m)
       history).

Definition need_more_context : pyval :=
  PDict [("status", PStr "failure"); ("content", PStr "Need more context")].

Definition history_request (question : string) (history : list Turn.t) : completion_request :=
  {| req_messages :=
       [("system", HISTORY_PROMPT);
        ("user", "Conversation history:" ++ nl ++ _format_history history ++ nl ++ nl
                 ++ "New question: " ++ question ++ nl ++ nl ++ "Respond with JSON:")];
     req_model := LLM_MODEL_NAME;
     req_temperature := (2 # 10)%Q;
     req_max_tokens := 512 |}.

Definition loads (raw : string) : M pyval :=
  match json_loads raw with
  | Some v => ret v
  | None => raise (Exc JSONDecodeError "Expecting value" None)
  end.

(** The two except clauses of [try_answer_from_history]:
    [except json.JSONDecodeError] first, then [except Exception as e]. *)
Definition except_phase1 (e : exc) : M pyval :=
  if is_JSONDecodeError e then ret need_more_context
  else raise (Exc RuntimeError ("LLM error: " ++ exc_msg e) (Some e)).

Definition try_answer_from_history (question : string) (history : list Turn.t) : M pyval :=
  match history with
  | [] => ret need_more_context
  | _ :: _ =>
      try_except
        (raw <- create_completion (history_request question history) ;
         result <- loads raw ;
         has_status <- lift_sum (py_contains "status" result) ;
         if negb has_status then ret need_more_context
         else
           has_content <- lift_sum (py_contains "content" result) ;
           if negb has_content then ret need_more_context
           else ret result)
        except_phase1
  end.

(** [history[-6:]] *)
Definition last_n {A} (n : nat) (l : list A) : list A := drop (length l - n) l.

Definition retrieval_request (question : string) (history : list Turn.t)
    (chunks : list Chunk.t) : completion_request :=
  let context :=
    join (nl ++ nl ++ "---" ++ nl ++ nl)
      (imap (fun i chunk => "[Chunk " ++ str_of_nat (i + 1) ++ "]" ++ nl ++ Chunk.text chunk)
         chunks) in
  let history_text :=
    match history with
    | [] => ""
    | _ :: _ => "Recent conversation:" ++ nl ++ _format_history (last_n 6 history) ++ nl ++ nl
    end in
  {| req_messages :=
       [("system", RETRIEVAL_PROMPT);
        ("user", history_text ++ "Retrieved context:" ++ nl ++ context ++ nl ++ nl
                 ++ "Question: " ++ question ++ nl ++ nl ++ "Answer:")];
     req_model := LLM_MODEL_NAME;
     req_temperature := (3 # 10)%Q;
     req_max_tokens := 512 |}.

Definition answer_with_retrieval (question : string) (history : list Turn.t) (top_k : nat) :
    M (string * list Chunk.t) :=
  chunks <- step3_retrieve question top_k ;
  answer <- create_completion (retrieval_request question history chunks) ;
  ret (answer, chunks).

(** The branch shared by [run] (steps 4 and 5) and [run_text] (steps 2
    and 3): the answer, its source and the chunks. *)
Definition answer_question (question : string) (history : list Turn.t) :
    M (pyval * string * option (list Chunk.t)) :=
  result <- try_answer_from_history question history ;
  status <- lift_sum (py_getitem result "status") ;
  if py_eq_str status "success" then
    answer <- lift_sum (py_getitem result "content") ;
    ret (answer, "history", None)
  else
    '(answer, chunks) <- answer_with_retrieval question history TOP_K_RETRIEVAL ;
    ret (PStr answer, "vectordb", Some chunks).

(** [len(chunks) if chunks else 0] *)
Definition chunks_used (chunks : option (list Chunk.t)) : Z :=
  match chunks with
  | Some l => Z.of_nat (length l)
  | None => 0
  end.

Definition assistant_metadata (source : string) (chunks : option (list Chunk.t)) :
    list (string * pyval) :=
  [("source", PStr source); ("chunks_used", PInt (chunks_used chunks))].

Record run_result : Type := {
  transcription : string;
  translation : string;
  answer : pyval;
  source : string;
  retrieved_chunks : option (list Chunk.t)
}.

Record run_text_result : Type := {
  text_answer : pyval;
  text_source : string;
  text_retrieved_chunks : option (list Chunk.t)
}.

(** [history] of [run] and [run_text]: the sliding window, as
    [get_recent_messages] returns it. *)
Definition history_window (session_id : string) (w : World) : list Turn.t :=
  map turn_of_message (recent_rows session_id SLIDING_WINDOW_SIZE w).

Definition run (audio_path session_id source_language : string) : M run_result :=
  transcription <- step1_transcribe audio_path ;
  translation <- step2_translate transcription source_language ;
  history <- get_recent_messages session_id SLIDING_WINDOW_SIZE ;
  '(answer, source, chunks) <- answer_question translation history ;
  add_message session_id user (PStr translation)
    (Some [("transcription", PStr transcription);
           ("source_language", PStr source_language)]) >>
  add_message session_id assistant answer (Some (assistant_metadata source chunks)) >>
  ret {| transcription := transcription; translation := translation;
         answer := answer; source := source; retrieved_chunks := chunks |}.

Definition run_text (message session_id : string) : M run_text_result :=
  history <- get_recent_messages session_id SLIDING_WINDOW_SIZE ;
  '(answer, source, chunks) <- answer_question message history ;
  add_message session_id user (PStr message) (Some [("input_type", PStr "text")]) >>
  add_message session_id assistant answer (Some (assistant_metadata source chunks)) >>
  ret {| text_answer := answer; text_source := source;
         text_retrieved_chunks := chunks |}.

(** ** Notions used to state the facts of Part II *)

(** The row that a successful [add_message] writes. *)
Definition inserted_row (session_id : string) (role : message_role) (text : string)
    (metadata : option (list (string * pyval))) (w : World) : ChatMessage.t :=
  ChatMessage.mk (next_id w) session_id role text (dump_metadata metadata)
    (clock env (ticks w)).

(** The world after the INSERT of a row. *)
Definition after_insert (row : ChatMessage.t) (w : World) : World :=
  {| sessions := sessions w; messages := (messages w ++ [row])%list;
     next_id := (next_id w + 1)%Z; ticks := S (ticks w); trace := trace w |}.


(** The answer engine writes nothing: it only makes calls. *)
Definition same_store (w w' : World) : Prop :=
  sessions w' = sessions w /\ messages w' = messages w /\
  next_id w' = next_id w /\ ticks w' = ticks w.


(** The persisting steps of run_text and of run, as functions of the
    answer that was decided. *)
Definition persist_text (session_id message : string)
    (decided : pyval * string * option (list Chunk.t)) : M run_text_result :=
  let '(answer, source, chunks) := decided in
  bind (add_message session_id user (PStr message)
          (Some [("input_type"%string, PStr "text")]))
    (fun _ =>
       bind (add_message session_id assistant answer
               (Some (assistant_metadata source chunks)))
         (fun _ => ret {| text_answer := answer; text_source := source;
                          text_retrieved_chunks := chunks |})).

Definition persist_audio (session_id source_language transcription translation : string)
    (decided : pyval * string * option (list Chunk.t)) : M run_result :=
  let '(answer, source, chunks) := decided in
  bind (add_message session_id user (PStr translation)
          (Some [("transcription"%string, PStr transcription);
                 ("source_language"%string, PStr source_language)]))
    (fun _ =>
       bind (add_message session_id assistant answer
               (Some (assistant_metadata source chunks)))
         (fun _ => ret {| transcription := transcription; translation := translation;
                          answer := answer; source := source;
                          retrieved_chunks := chunks |})).

End Engine.

(** The event is a generation call whose system message is the phase-1
    prompt. *)
Definition phase1_call (ev : event) : bool :=
  match ev with
  | EvGenerate req =>
      match req_messages req with
      | (_, system) :: _ => String.eqb system HISTORY_PROMPT
      | [] => false
      end
  | _ => false
  end.

(** The calls made between a world and the end of a computation from it. *)
Definition new_events {A} (w : World) (r : res A) : list event :=
  drop (length (trace w)) (trace (final_world r)).

(** A number, a boolean or None. *)
Definition is_scalar (v : pyval) : bool :=
  match v with
  | PNone | PBool _ | PInt _ | PFloat _ => true
  | _ => false
  end.




(** ** Concrete collaborators and stores, used to exercise the results *)

Module Scenario.

Definition is_history_request (req : completion_request) : bool :=
  match req_messages req with
  | (_, system) :: _ => String.eqb system HISTORY_PROMPT
  | [] => false
  end.

Definition chunk1 : Chunk.t :=
  Chunk.mk "Mahatma Gandhi led the Indian independence movement." (PDict []) (25 # 100).

Definition chunk2 : Chunk.t :=
  Chunk.mk "Gandhi was born in Porbandar in 1869." (PDict []) (31 # 100).

(** Collaborators whose phase-1 generation call has the given outcome;
    the backend enforces the foreign key and refuses values that are
    not text. *)
Definition scripted (phase1 : exc + string) : Env := {|
  clock := fun i => (1700000000 + Z.of_nat i)%Z;
  chat_completion := fun _ req =>
    if is_history_request req then phase1
    else inr "Gandhi led the Indian independence movement.";
  query_vector_db := fun _ _ k => inr (take k [chunk1; chunk2]);
  asr_transcribe := fun _ _ => inr "gandhi kaun the";
  translate_to_english := fun _ _ _ => inr "Who was Gandhi?";
  fk_enforced := true;
  bind_nonstr := fun v =>
    inl (Exc TypeError (type_name v ++ " can not be used as parameter") None)
|}.

Definition sid : string := "3f0c".

Definition empty_session : World := {|
  sessions := {[ sid := ChatSession.mk sid 1699999990 1699999990 ]};
  messages := [];
  next_id := 1;
  ticks := 0;
  trace := []
|}.

(** The same session after one exchange. *)
Definition one_exchange : World := {|
  sessions := {[ sid := ChatSession.mk sid 1699999990 1699999996 ]};
  messages :=
    [ChatMessage.mk 1 sid user "Who was Gandhi?" None 1699999995;
     ChatMessage.mk 2 sid assistant "Gandhi led the Indian independence movement."
       None 1699999996];
  next_id := 3;
  ticks := 0;
  trace := []
|}.


(** Collaborators for properties of the store alone: no generation
    service answers. *)
Definition offline : Env :=
  scripted (inl (Exc (OtherError "APIConnectionError") "Connection error." None)).

(** [empty_session] after one [add_message] with the given metadata. *)
Definition appended (metadata : option (list (string * pyval))) : World :=
  final_world
    (add_message offline sid user (PStr "Who was Gandhi?") metadata empty_session).



(** A JSON array that names both fields. *)
Definition names_json : string :=
  "[" ++ q ++ "status" ++ q ++ ", " ++ q ++ "content" ++ q ++ "]".

Definition partial_json : string :=
  "{" ++ q ++ "status" ++ q ++ ": " ++ q ++ "partial" ++ q ++ ", "
      ++ q ++ "content" ++ q ++ ": " ++ q ++ "maybe" ++ q ++ "}".



End Scenario.

(** * Part II: facts *)

Local Open Scope list_scope.

Local Open Scope Z_scope.

(** ** [json.loads] inverts [json.dumps] *)

Lemma chars_str l : chars (str l) = l.
Proof. apply list_ascii_of_string_of_list_ascii. Qed.

Lemma str_chars s : str (chars s) = s.
Proof. apply string_of_list_ascii_of_string. Qed.

Ltac all_chars c := destruct c as [[] [] [] [] [] [] [] []].

Lemma digit_of_char_None c : is_digit c = false -> digit_of_char c = None.
Proof. all_chars c; vm_compute; congruence. Qed.

Lemma lex_uint_stop rest :
  num_stop rest = true -> lex_uint rest = (Decimal.Nil, rest).
Proof.
  destruct rest as [|c r]; [done|]. cbn [num_stop lex_uint]. intros H.
  rewrite digit_of_char_None; [done|].
  destruct (is_digit c); [done|done].
Qed.

Lemma lex_uint_chars d rest :
  num_stop rest = true -> lex_uint (chars_of_uint d ++ rest) = (d, rest).
Proof.
  intros H. induction d; cbn [chars_of_uint app];
    [by apply lex_uint_stop | cbn [lex_uint]; rewrite IHd; reflexivity ..].
Qed.

Lemma lex_frac_stop rest : num_stop rest = true -> lex_frac rest = ([], rest).
Proof.
  destruct rest as [|c [|d r]]; [done..|]. cbn [num_stop lex_frac]. intros H.
  destruct (Ascii.eqb c "."); [|done].
  rewrite !orb_true_r in H. done.
Qed.

Lemma lex_exp_stop rest : num_stop rest = true -> lex_exp rest = ([], rest).
Proof.
  destruct rest as [|c r]; [done|]. cbn [num_stop lex_exp]. intros H.
  destruct (Ascii.eqb c "e"); [rewrite !orb_true_r in H; done|].
  destruct (Ascii.eqb c "E"); [rewrite !orb_true_r in H; done|]. done.
Qed.

(** The decimal digits of a positive number start with a non-zero digit. *)
Lemma pos_to_uint_head p :
  match Pos.to_uint p with
  | Decimal.Nil | Decimal.D0 _ => False
  | _ => True
  end.
Proof.
  pose proof (DecimalPos.Unsigned.to_uint_nonnil p) as Hnil.
  pose proof (DecimalPos.Unsigned.to_uint_nonzero p) as Hz.
  assert (Hn : Decimal.unorm (Pos.to_uint p) = Pos.to_uint p).
  { rewrite <- DecimalPos.Unsigned.to_of, DecimalPos.Unsigned.of_to. reflexivity. }
  destruct (Pos.to_uint p) as [|u| | | | | | | | |] eqn:E; try exact I; [done|].
  rewrite DecimalFacts.unorm_D0 in Hn.
  destruct u as [|u'| | | | | | | | |] eqn:Eu; [by apply Hz|..];
    (pose proof (DecimalFacts.nb_digits_unorm u) as Hle;
     rewrite Eu in Hle; rewrite Hn in Hle; cbn in Hle;
     exfalso; specialize (Hle ltac:(discriminate)); lia).
Qed.

Lemma lex_intpart_nz d rest :
  match d with Decimal.Nil | Decimal.D0 _ => False | _ => True end ->
  num_stop rest = true ->
  lex_intpart (chars_of_uint d ++ rest) = Some (d, rest).
Proof.
  intros Hd Hst. pose proof (lex_uint_chars d rest Hst) as Hlex.
  destruct d; try done; cbn [chars_of_uint app] in *; unfold lex_intpart;
    match goal with
    | |- context [Ascii.eqb ?c "0"] => change (Ascii.eqb c "0") with false
    end;
    match goal with
    | |- context [is_digit ?c] => change (is_digit c) with true
    end; cbv iota; by rewrite Hlex.
Qed.

Lemma match_number_nat (n : N) rest :
  num_stop rest = true ->
  match_number (chars_of_uint (N.to_uint n) ++ rest) = Some (PInt (Z.of_N n), rest).
Proof.
  intros Hst. destruct n as [|p].
  - cbn [N.to_uint]. unfold match_number. cbn -[lex_frac lex_exp].
    by rewrite lex_frac_stop, lex_exp_stop.
  - change (N.to_uint (N.pos p)) with (Pos.to_uint p).
    pose proof (pos_to_uint_head p) as Hh.
    pose proof (lex_intpart_nz _ rest Hh Hst) as Hint.
    unfold match_number.
    assert (Hneg : match chars_of_uint (Pos.to_uint p) ++ rest with
                   | c :: r => if Ascii.eqb c "-" then (true, r)
                               else (false, chars_of_uint (Pos.to_uint p) ++ rest)
                   | [] => (false, chars_of_uint (Pos.to_uint p) ++ rest)
                   end = (false, chars_of_uint (Pos.to_uint p) ++ rest)).
    { destruct (Pos.to_uint p); try done. }
    rewrite Hneg, Hint, lex_frac_stop, lex_exp_stop by done.
    unfold N.of_uint. by rewrite DecimalPos.Unsigned.of_to.
Qed.

Lemma match_number_int z rest :
  num_stop rest = true -> match_number (int_chars z ++ rest) = Some (PInt z, rest).
Proof.
  intros Hst. unfold int_chars.
  destruct z as [|p|p]; cbn [Z.ltb Z.compare Z.abs_N app].
  - by apply (match_number_nat 0).
  - by apply (match_number_nat (N.pos p)).
  - pose proof (pos_to_uint_head p) as Hh.
    pose proof (lex_intpart_nz _ rest Hh Hst) as Hint.
    change (N.to_uint (N.pos p)) with (Pos.to_uint p).
    unfold match_number. change (Ascii.eqb "-" "-") with true. cbv iota.
    rewrite Hint, lex_frac_stop, lex_exp_stop by done.
    unfold N.of_uint. by rewrite DecimalPos.Unsigned.of_to.
Qed.

(** Decoding undoes the escaping of one character, then of a body. *)
Lemma scanstring_escape_char c rest :
  scanstring (escape_char c ++ rest) = cons_chars [c] (scanstring rest).
Proof. all_chars c; reflexivity. Qed.

Lemma scanstring_quoted cs rest :
  scanstring (flat_map escape_char cs ++ dquote :: rest) = Some (cs, rest).
Proof.
  induction cs as [|c cs IH]; [reflexivity|].
  cbn [flat_map]. rewrite <- app_assoc, scanstring_escape_char, IH. reflexivity.
Qed.

(** One-step unfoldings of the scanner. *)
Lemma scan_once_string n r :
  scan_once (S n) (dquote :: r) =
  match scanstring r with
  | Some (body, r') => Some (PStr (str body), r')
  | None => None
  end.
Proof. reflexivity. Qed.

Lemma scan_once_array n r :
  scan_once (S n) ("["%char :: r) =
  match skip_ws r with
  | c1 :: r1 =>
      if Ascii.eqb c1 "]" then Some (PList [], r1) else parse_items n (c1 :: r1) []
  | [] => None
  end.
Proof. reflexivity. Qed.

Lemma scan_once_object n r :
  scan_once (S n) ("{"%char :: r) =
  match skip_ws r with
  | c1 :: r1 =>
      if Ascii.eqb c1 "}" then Some (PDict [], r1)
      else if Ascii.eqb c1 dquote then parse_pairs n r1 []
      else None
  | [] => None
  end.
Proof. reflexivity. Qed.

Lemma scan_once_number n c r res :
  is_digit c || Ascii.eqb c "-" = true ->
  match_number (c :: r) = Some res ->
  scan_once (S n) (c :: r) = Some res.
Proof.
  intros Hc Hm.
  all_chars c; try (vm_compute in Hc; discriminate Hc);
    cbn -[match_number]; by rewrite Hm.
Qed.

Lemma parse_items_S n s acc :
  parse_items (S n) s acc =
  match scan_once n s with
  | None => None
  | Some (v, r) =>
      match skip_ws r with
      | c :: r' =>
          if Ascii.eqb c "]" then Some (PList (rev (v :: acc)), r')
          else if Ascii.eqb c "," then parse_items n (skip_ws r') (v :: acc)
          else None
      | [] => None
      end
  end.
Proof. reflexivity. Qed.

Lemma parse_pairs_S n s acc :
  parse_pairs (S n) s acc =
  match scanstring s with
  | None => None
  | Some (key, r) =>
      match skip_ws r with
      | c :: r1 =>
          if Ascii.eqb c ":" then
            match scan_once n (skip_ws r1) with
            | None => None
            | Some (v, r2) =>
                match skip_ws r2 with
                | c2 :: r3 =>
                    if Ascii.eqb c2 "}" then
                      Some (PDict (py_dict (rev ((str key, v) :: acc))), r3)
                    else if Ascii.eqb c2 "," then
                      match skip_ws r3 with
                      | c3 :: r4 =>
                          if Ascii.eqb c3 dquote
                          then parse_pairs n r4 ((str key, v) :: acc)
                          else None
                      | [] => None
                      end
                    else None
                | [] => None
                end
            end
          else None
      | [] => None
      end
  end.
Proof. reflexivity. Qed.

Lemma value_head_app s t : value_head s -> value_head (s ++ t).
Proof. by destruct s. Qed.

Lemma skip_ws_value s : value_head s -> skip_ws s = s.
Proof. destruct s as [|c r]; [done|]. intros [H _]. cbn. by rewrite H. Qed.

Lemma uint_chars_head d :
  d <> Decimal.Nil ->
  match chars_of_uint d with c :: _ => is_digit c = true | [] => False end.
Proof. by destruct d. Qed.

Lemma to_uint_nonnil n : N.to_uint n <> Decimal.Nil.
Proof. destruct n; [done|]. apply DecimalPos.Unsigned.to_uint_nonnil. Qed.

Lemma int_chars_head z :
  match int_chars z with
  | c :: _ => is_digit c || Ascii.eqb c "-" = true
  | [] => False
  end.
Proof.
  unfold int_chars. destruct (z <? 0); [done|]. cbn [app].
  pose proof (uint_chars_head _ (to_uint_nonnil (Z.abs_N z))) as H.
  destruct (chars_of_uint _); [done|]. by rewrite H.
Qed.

Lemma digit_value_head c :
  is_digit c || Ascii.eqb c "-" = true -> is_ws c = false /\ Ascii.eqb c "]" = false.
Proof. all_chars c; vm_compute; intros; (done || split; done). Qed.

Lemma dumps_head v : json_able v = true -> value_head (dumps_chars v).
Proof.
  destruct v as [|[]|z|lit|s|l|d]; try done; intros _.
  cbn [dumps_chars]. pose proof (int_chars_head z) as H.
  destruct (int_chars z) as [|c r]; [done|]. by apply digit_value_head.
Qed.

Lemma join_head sep p ps t :
  value_head p -> value_head (join_chars sep (p :: ps) ++ t).
Proof.
  intros H. destruct ps; cbn [join_chars].
  - by apply value_head_app.
  - rewrite <- app_assoc. by apply value_head_app.
Qed.

Lemma join_cons2 sep p p' ps t :
  join_chars sep (p :: p' :: ps) ++ t = p ++ sep ++ join_chars sep (p' :: ps) ++ t.
Proof. cbn [join_chars]. by rewrite <- !app_assoc. Qed.

Lemma join_items2 p p' ps t :
  join_chars item_sep (p :: p' :: ps) ++ t
  = p ++ ","%char :: " "%char :: (join_chars item_sep (p' :: ps) ++ t).
Proof. cbn [join_chars]. by rewrite <- !app_assoc. Qed.

Lemma skip_ws_comma s : skip_ws (","%char :: s) = ","%char :: s.
Proof. reflexivity. Qed.

Lemma skip_ws_colon s : skip_ws (":"%char :: s) = ":"%char :: s.
Proof. reflexivity. Qed.

Lemma skip_ws_space s : skip_ws (" "%char :: s) = skip_ws s.
Proof. reflexivity. Qed.

Lemma parse_items_dumps l :
  Forall scans_back l -> forallb json_able l = true -> l <> [] ->
  forall n acc rest,
    (list_sum (map (fun x => S (fuel x)) l) <= n)%nat ->
    parse_items n (join_chars item_sep (map dumps_chars l) ++ "]"%char :: rest) acc
    = Some (PList (rev acc ++ l), rest).
Proof.
  induction 1 as [|v l Hv Hl IH]; [done|]. intros Hable _ n acc rest Hn.
  cbn [forallb] in Hable. apply andb_true_iff in Hable as [Hav Hal].
  cbn [map list_sum fold_right] in Hn. destruct n as [|n]; [lia|].
  rewrite parse_items_S. destruct l as [|v' l'].
  - cbn [map join_chars]. rewrite (Hv Hav n ("]"%char :: rest)); [|cbn in *; lia|done].
    reflexivity.
  - cbn [map]. rewrite join_items2.
    rewrite (Hv Hav n); [|cbn in *; lia|done].
    rewrite skip_ws_comma.
    change (Ascii.eqb "," "]") with false. change (Ascii.eqb "," ",") with true.
    cbv iota. rewrite skip_ws_space, skip_ws_value.
    2:{ apply join_head, dumps_head. cbn [forallb] in Hal.
        by apply andb_true_iff in Hal as [? _]. }
    change (dumps_chars v' :: map dumps_chars l') with (map dumps_chars (v' :: l')).
    rewrite IH; [|done|done|cbn in *; lia].
    cbn [rev]. by rewrite <- app_assoc.
Qed.

Lemma dict_set_fresh d k v :
  k ∉ map fst d -> dict_set d k v = d ++ [(k, v)].
Proof.
  induction d as [|[k' v'] d IH]; [done|]. cbn [map fst dict_set app].
  intros Hk. apply not_elem_of_cons in Hk as [Hne Hk].
  destruct (String.eqb_spec k' k); [congruence|]. by rewrite IH.
Qed.

Lemma fold_dict_set_nodup l d0 :
  NoDup (map fst (d0 ++ l)) ->
  fold_left (fun d kv => dict_set d (fst kv) (snd kv)) l d0 = d0 ++ l.
Proof.
  revert d0. induction l as [|[k v] l IH]; intros d0 Hnd.
  - by rewrite app_nil_r.
  - cbn [fold_left fst snd]. rewrite dict_set_fresh.
    + rewrite IH; rewrite <- app_assoc; [done|]. exact Hnd.
    + rewrite map_app in Hnd. apply NoDup_app in Hnd as (_ & Hdis & _).
      intros Hin. apply (Hdis k Hin). cbn. left.
Qed.

Lemma py_dict_nodup l : NoDup (map fst l) -> py_dict l = l.
Proof. intros H. unfold py_dict. by rewrite fold_dict_set_nodup. Qed.

Lemma pairs_tail_cons2 kv kv' d rest :
  pairs_tail (kv :: kv' :: d) rest
  = pair_tail kv ++ ","%char :: " "%char :: dquote :: pairs_tail (kv' :: d) rest.
Proof. reflexivity. Qed.

Lemma dumps_pair_tail kv : dumps_pair kv = dquote :: pair_tail kv.
Proof.
  unfold dumps_pair, pair_tail, quote_chars, key_sep.
  cbn [app]. by rewrite <- !app_assoc.
Qed.

Lemma join_pairs_tail kv d rest :
  join_chars item_sep (map dumps_pair (kv :: d)) ++ "}"%char :: rest
  = dquote :: pairs_tail (kv :: d) rest.
Proof.
  revert kv. induction d as [|kv' d IH]; intros kv.
  - cbn [map join_chars pairs_tail]. by rewrite dumps_pair_tail.
  - cbn [map]. rewrite join_items2. cbn [map] in IH. rewrite IH.
    rewrite dumps_pair_tail, pairs_tail_cons2. cbn [app]. done.
Qed.

Lemma parse_pairs_dumps d :
  Forall (fun kv => scans_back (snd kv)) d ->
  forallb (fun kv => json_able (snd kv)) d = true -> d <> [] ->
  forall n acc rest,
    (list_sum (map (fun kv => S (fuel (snd kv))) d) <= n)%nat ->
    parse_pairs n (pairs_tail d rest) acc = Some (PDict (py_dict (rev acc ++ d)), rest).
Proof.
  induction 1 as [|[k v] d Hv Hd IH]; [done|]. intros Hable _ n acc rest Hn.
  cbn [forallb snd] in Hable. apply andb_true_iff in Hable as [Hav Hal].
  cbn [map list_sum fold_right snd] in Hn. destruct n as [|n]; [lia|].
  cbn [snd] in Hv. rewrite parse_pairs_S. destruct d as [|kv' d'].
  - cbn [pairs_tail]. unfold pair_tail. cbn [fst snd]. rewrite <- app_assoc.
    cbn [app]. rewrite scanstring_quoted, skip_ws_colon.
    change (Ascii.eqb ":" ":") with true. cbv iota.
    rewrite skip_ws_space, skip_ws_value by (by apply value_head_app, dumps_head).
    rewrite (Hv Hav n); [|cbn in *; lia|done].
    cbn. by rewrite str_chars.
  - rewrite pairs_tail_cons2. unfold pair_tail at 1. cbn [fst snd]. rewrite <- app_assoc.
    cbn [app]. rewrite scanstring_quoted, skip_ws_colon.
    change (Ascii.eqb ":" ":") with true. cbv iota.
    rewrite skip_ws_space, skip_ws_value by (by apply value_head_app, dumps_head).
    rewrite (Hv Hav n); [|cbn in *; lia|done].
    rewrite skip_ws_comma.
    change (Ascii.eqb "," "}") with false. change (Ascii.eqb "," ",") with true.
    cbv iota. rewrite skip_ws_space.
    change (skip_ws (dquote :: ?x)) with (dquote :: x).
    change (Ascii.eqb dquote dquote) with true. cbv iota.
    rewrite IH; [|done|done|cbn in *; lia].
    rewrite str_chars. cbn [rev]. by rewrite <- app_assoc.
Qed.

(** [scan_once] reads a serialised value back, and stops right after it. *)
Lemma scan_once_dumps v : scans_back v.
Proof.
  induction v as [|b|z|lit|s|l IH|d IH] using pyval_ind;
    intros Hable n rest Hn Hst; try discriminate Hable;
    (destruct n as [|n]; [cbn in Hn; lia|]).
  - reflexivity.
  - by destruct b.
  - cbn [dumps_chars]. pose proof (int_chars_head z) as Hh.
    pose proof (match_number_int z rest Hst) as Hm.
    destruct (int_chars z) as [|c r]; [done|]. by apply scan_once_number.
  - cbn [dumps_chars]. unfold quote_chars. cbn [app]. rewrite <- app_assoc.
    rewrite scan_once_string. cbn [app]. rewrite scanstring_quoted.
    by rewrite str_chars.
  - cbn [dumps_chars app]. rewrite scan_once_array. destruct l as [|v l'].
    + reflexivity.
    + cbn [json_able] in Hable. rewrite <- app_assoc. cbn [app].
      assert (Hhead : value_head
                (join_chars item_sep (map dumps_chars (v :: l')) ++ "]"%char :: rest)).
      { apply join_head, dumps_head. cbn [forallb] in Hable.
        by apply andb_true_iff in Hable as [? _]. }
      rewrite skip_ws_value by done.
      pose proof (parse_items_dumps (v :: l') IH Hable ltac:(done) n [] rest) as Hp.
      destruct (join_chars item_sep (map dumps_chars (v :: l')) ++ "]"%char :: rest)
        as [|c1 r1]; [done|].
      destruct Hhead as [_ ->]. apply Hp. cbn in Hn |- *. lia.
  - cbn [dumps_chars app]. rewrite scan_once_object.
    cbn [json_able] in Hable. apply andb_true_iff in Hable as [Hnd Hable].
    apply bool_decide_eq_true in Hnd.
    destruct d as [|kv d'].
    + reflexivity.
    + rewrite <- app_assoc. cbn [app].
      change (map _ (kv :: d')) with (map dumps_pair (kv :: d')).
      rewrite join_pairs_tail.
      change (skip_ws (dquote :: ?x)) with (dquote :: x).
      change (Ascii.eqb dquote "}") with false.
      change (Ascii.eqb dquote dquote) with true. cbv iota.
      rewrite (parse_pairs_dumps (kv :: d') IH Hable ltac:(done) n [] rest).
      * cbn [rev app]. by rewrite py_dict_nodup.
      * cbn in Hn |- *. lia.
Qed.

(** The nesting bound of a value is at most the length of its text. *)
Lemma join_fuel_bound {A} (f : A -> nat) (g : A -> list ascii) (l : list A) :
  Forall (fun x => (f x <= length (g x))%nat) l ->
  (list_sum (map (fun x => S (f x)) l)
   <= S (length (join_chars item_sep (map g l))))%nat.
Proof.
  induction 1 as [|x l Hx Hl IH]; [cbn; lia|].
  destruct l as [|x' l'].
  - cbn. lia.
  - change (map g (x :: x' :: l')) with (g x :: g x' :: map g l').
    change (join_chars item_sep (g x :: g x' :: map g l'))
      with (g x ++ item_sep ++ join_chars item_sep (map g (x' :: l'))).
    rewrite !length_app. cbn [item_sep length].
    change (list_sum (map (fun x => S (f x)) (x :: x' :: l')))
      with (S (f x) + list_sum (map (fun x => S (f x)) (x' :: l')))%nat.
    lia.
Qed.

Lemma fuel_le_length v :
  json_able v = true -> (fuel v <= length (dumps_chars v))%nat.
Proof.
  induction v as [|b|z|lit|s|l IH|d IH] using pyval_ind; intros Hable;
    try discriminate Hable.
  - cbn. lia.
  - destruct b; cbn; lia.
  - pose proof (dumps_head (PInt z) eq_refl) as H.
    destruct (dumps_chars (PInt z)); [done|]. cbn. lia.
  - cbn [dumps_chars fuel quote_chars length]. lia.
  - cbn [dumps_chars fuel length json_able] in *. rewrite length_app. cbn [length].
    pose proof (join_fuel_bound fuel dumps_chars l) as Hb.
    assert (Hall : Forall (fun x => (fuel x <= length (dumps_chars x))%nat) l).
    { apply Forall_forall. intros x Hx. rewrite Forall_forall in IH.
      apply (IH x Hx). rewrite forallb_forall in Hable. apply Hable.
      by apply list_elem_of_In. }
    specialize (Hb Hall). lia.
  - cbn [dumps_chars fuel length json_able] in *. rewrite length_app. cbn [length].
    apply andb_true_iff in Hable as [_ Hable].
    pose proof (join_fuel_bound (fun kv => fuel (snd kv)) dumps_pair d) as Hb.
    assert (Hall : Forall (fun kv => (fuel (snd kv) <= length (dumps_pair kv))%nat) d).
    { apply Forall_forall. intros kv Hkv. rewrite Forall_forall in IH.
      unfold dumps_pair. rewrite !length_app.
      specialize (IH kv Hkv). rewrite forallb_forall in Hable.
      specialize (Hable kv (proj1 (list_elem_of_In _ _) Hkv)). cbn beta in Hable.
      specialize (IH Hable). lia. }
    specialize (Hb Hall). unfold dumps_pair in Hb. lia.
Qed.

(** [json.loads(json.dumps(v, ensure_ascii=False)) == v]. *)
Lemma loads_dumps v : json_able v = true -> json_loads (json_dumps v) = Some v.
Proof.
  intros Hable. unfold json_loads, json_dumps. rewrite chars_str.
  rewrite skip_ws_value by (by apply dumps_head).
  pose proof (scan_once_dumps v Hable (S (length (dumps_chars v))) []) as H.
  rewrite app_nil_r in H. rewrite H; [done| |done].
  pose proof (fuel_le_length v Hable). lia.
Qed.

(** ** The nesting bound of the scanner

    Every successful scan consumes input, so the number of recursive
    calls is at most the number of characters consumed. *)

Lemma skip_ws_length s : (length (skip_ws s) <= length s)%nat.
Proof.
  induction s as [|c s IH]; [done|]. cbn. destruct (is_ws c); cbn; lia.
Qed.

Lemma starts_with_length p s r :
  starts_with p s = Some r -> length s = (length p + length r)%nat.
Proof.
  revert s. induction p as [|a p IH]; intros s; cbn.
  - by intros [= ->].
  - destruct s as [|b s]; [done|]. destruct (Ascii.eqb a b); [|done].
    intros H%IH. cbn. lia.
Qed.

Lemma lex_uint_length s d r : lex_uint s = (d, r) -> (length r <= length s)%nat.
Proof.
  revert d r. induction s as [|c s IH]; intros d r; cbn.
  - by intros [= _ <-].
  - destruct (digit_of_char c) as [mk|].
    + destruct (lex_uint s) as [d' r'] eqn:E. intros [= _ <-].
      specialize (IH _ _ eq_refl). lia.
    + intros [= _ <-]. cbn. lia.
Qed.

Lemma scanstring_length s body r :
  scanstring s = Some (body, r) -> (length r < length s)%nat.
Proof.
  remember (length s) as n eqn:Hn. revert s body r Hn.
  induction n as [n IH] using lt_wf_ind. intros s body r -> H.
  assert (Hrec : forall cs t body r,
             (length t < length s)%nat ->
             cons_chars cs (scanstring t) = Some (body, r) ->
             (length r < length t)%nat).
  { intros cs t body' r' Hlt Hc. destruct (scanstring t) as [[b' t']|] eqn:E; [|done].
    injection Hc as _ <-. by eapply (IH (length t)). }
  destruct s as [|c s]; [done|]. cbn [scanstring] in H.
  destruct (Ascii.eqb c dquote). { injection H as _ <-. cbn. lia. }
  destruct (Ascii.eqb c bslash).
  - destruct s as [|e r1]; [done|].
    destruct (Ascii.eqb e "u").
    + destruct r1 as [|h1 [|h2 [|h3 [|h4 r2]]]]; try done.
      destruct (hex4 h1 h2 h3 h4) as [uni|]; [|done].
      destruct (is_high_surrogate uni).
      * destruct r2 as [|b [|u [|g1 [|g2 [|g3 [|g4 r3]]]]]];
          try (apply Hrec in H; cbn in *; lia).
        destruct (Ascii.eqb b bslash && Ascii.eqb u "u").
        -- destruct (hex4 g1 g2 g3 g4) as [uni2|]; [|done].
           destruct (is_low_surrogate uni2); apply Hrec in H; cbn in *; lia.
        -- apply Hrec in H; cbn in *; lia.
      * apply Hrec in H; cbn in *; lia.
    + destruct (unescape e); [|done]. apply Hrec in H; cbn in *; lia.
  - destruct (code c <? 32)%N; [done|]. apply Hrec in H; cbn in *; lia.
Qed.



Lemma digit_of_char_Some c : is_digit c = true -> digit_of_char c <> None.
Proof. all_chars c; vm_compute; congruence. Qed.

Lemma lex_intpart_length s d r :
  lex_intpart s = Some (d, r) -> (length r < length s)%nat.
Proof.
  destruct s as [|c s]; [done|]. unfold lex_intpart.
  destruct (Ascii.eqb c "0"). { intros [= _ <-]. cbn. lia. }
  destruct (is_digit c) eqn:Hd; [|done]. intros [= H].
  apply digit_of_char_Some in Hd. cbn [lex_uint] in H.
  destruct (digit_of_char c); [|done].
  destruct (lex_uint s) as [d' r'] eqn:E. injection H as _ <-.
  apply lex_uint_length in E. cbn. lia.
Qed.

Lemma lex_frac_length s f r : lex_frac s = (f, r) -> (length r <= length s)%nat.
Proof.
  destruct s as [|c [|d s]]; try (intros [= _ <-]; cbn; lia).
  unfold lex_frac. destruct (Ascii.eqb c "." && is_digit d).
  - destruct (lex_uint (d :: s)) as [ds r'] eqn:E. intros [= _ <-].
    apply lex_uint_length in E. cbn in *. lia.
  - intros [= _ <-]. cbn. lia.
Qed.

Lemma lex_exp_length s f r : lex_exp s = (f, r) -> (length r <= length s)%nat.
Proof.
  destruct s as [|e s]; [intros [= _ <-]; cbn; lia|].
  unfold lex_exp. destruct (Ascii.eqb e "e" || Ascii.eqb e "E").
  - destruct s as [|g s1].
    + cbn. intros [= _ <-]. cbn. lia.
    + destruct (Ascii.eqb g "-" || Ascii.eqb g "+").
      * destruct (lex_uint s1) as [ds r2] eqn:E. apply lex_uint_length in E.
        destruct ds; intros [= _ <-]; cbn in *; lia.
      * destruct (lex_uint (g :: s1)) as [ds r2] eqn:E. apply lex_uint_length in E.
        destruct ds; intros [= _ <-]; cbn in *; lia.
  - intros [= _ <-]. cbn. lia.
Qed.

Lemma match_number_length s v r :
  match_number s = Some (v, r) -> (length r < length s)%nat.
Proof.
  unfold match_number.
  set (p := match s with
            | c :: r0 => if Ascii.eqb c "-" then (true, r0) else (false, s)
            | [] => (false, s)
            end).
  assert (Hp : (length p.2 <= length s)%nat).
  { subst p. destruct s as [|c r0]; [done|]. destruct (Ascii.eqb c "-"); cbn; lia. }
  destruct p as [neg s1]. cbn [snd] in Hp.
  destruct (lex_intpart s1) as [[d r1]|] eqn:E1; [|done].
  apply lex_intpart_length in E1.
  destruct (lex_frac r1) as [frac r2] eqn:E2. apply lex_frac_length in E2.
  destruct (lex_exp r2) as [ex r3] eqn:E3. apply lex_exp_length in E3.
  destruct frac, ex; intros [= _ <-]; lia.
Qed.

Lemma scan_consumes n :
  (forall s v r, scan_once n s = Some (v, r) -> (length r < length s)%nat) /\
  (forall s acc v r, parse_items n s acc = Some (v, r) -> (length r < length s)%nat) /\
  (forall s acc v r, parse_pairs n s acc = Some (v, r) -> (length r < length s)%nat).
Proof.
  induction n as [|n (IHs & IHi & IHp)]; [done|]. split; [|split].
  - intros s v r H. destruct s as [|c s]; [done|]. cbn [scan_once] in H.
    pose proof (skip_ws_length s) as Hws.
    destruct (Ascii.eqb c dquote).
    { destruct (scanstring s) as [[body r']|] eqn:E; [|done].
      injection H as _ <-. apply scanstring_length in E. cbn. lia. }
    destruct (Ascii.eqb c "{").
    { destruct (skip_ws s) as [|c1 r1]; [done|].
      destruct (Ascii.eqb c1 "}"); [injection H as _ <-; cbn in *; lia|].
      destruct (Ascii.eqb c1 dquote); [|done]. apply IHp in H. cbn in *. lia. }
    destruct (Ascii.eqb c "[").
    { destruct (skip_ws s) as [|c1 r1]; [done|].
      destruct (Ascii.eqb c1 "]"); [injection H as _ <-; cbn in *; lia|].
      apply IHi in H. cbn in *. lia. }
    destruct (starts_with (chars "null") (c :: s)) eqn:E1.
    { injection H as _ <-. apply starts_with_length in E1. cbn in E1 |- *. lia. }
    destruct (starts_with (chars "true") (c :: s)) eqn:E2.
    { injection H as _ <-. apply starts_with_length in E2. cbn in E2 |- *. lia. }
    destruct (starts_with (chars "false") (c :: s)) eqn:E3.
    { injection H as _ <-. apply starts_with_length in E3. cbn in E3 |- *. lia. }
    destruct (match_number (c :: s)) as [[v' r']|] eqn:E4.
    { injection H as _ <-. apply match_number_length in E4. done. }
    destruct (starts_with (chars "NaN") (c :: s)) eqn:E5.
    { injection H as _ <-. apply starts_with_length in E5. cbn in E5 |- *. lia. }
    destruct (starts_with (chars "Infinity") (c :: s)) eqn:E6.
    { injection H as _ <-. apply starts_with_length in E6. cbn in E6 |- *. lia. }
    destruct (starts_with (chars "-Infinity") (c :: s)) eqn:E7; [|done].
    injection H as _ <-. apply starts_with_length in E7. cbn in E7 |- *. lia.
  - intros s acc v r H. rewrite parse_items_S in H.
    destruct (scan_once n s) as [[v1 r1]|] eqn:E; [|done]. apply IHs in E.
    pose proof (skip_ws_length r1) as Hws.
    destruct (skip_ws r1) as [|c r']; [done|].
    destruct (Ascii.eqb c "]"); [injection H as _ <-; cbn in *; lia|].
    destruct (Ascii.eqb c ","); [|done]. apply IHi in H.
    pose proof (skip_ws_length r'). cbn in *. lia.
  - intros s acc v r H. rewrite parse_pairs_S in H.
    destruct (scanstring s) as [[key r0]|] eqn:E0; [|done].
    apply scanstring_length in E0.
    pose proof (skip_ws_length r0) as Hws.
    destruct (skip_ws r0) as [|c r1]; [done|].
    destruct (Ascii.eqb c ":"); [|done].
    destruct (scan_once n (skip_ws r1)) as [[v1 r2]|] eqn:E; [|done]. apply IHs in E.
    pose proof (skip_ws_length r1). pose proof (skip_ws_length r2).
    destruct (skip_ws r2) as [|c2 r3]; [done|].
    destruct (Ascii.eqb c2 "}"); [injection H as _ <-; cbn in *; lia|].
    destruct (Ascii.eqb c2 ","); [|done].
    pose proof (skip_ws_length r3).
    destruct (skip_ws r3) as [|c3 r4]; [done|].
    destruct (Ascii.eqb c3 dquote); [|done]. apply IHp in H. cbn in *. lia.
Qed.

Lemma scan_fuel n :
  (forall s v r m, scan_once n s = Some (v, r) ->
     (length s - length r <= m)%nat -> scan_once m s = Some (v, r)) /\
  (forall s acc v r m, parse_items n s acc = Some (v, r) ->
     (length s - length r <= m)%nat -> parse_items m s acc = Some (v, r)) /\
  (forall s acc v r m, parse_pairs n s acc = Some (v, r) ->
     (length s - length r <= m)%nat -> parse_pairs m s acc = Some (v, r)).
Proof.
  induction n as [|n (IHs & IHi & IHp)]; [done|]. split; [|split].
  - intros s v r m H Hm.
    pose proof (proj1 (scan_consumes (S n)) _ _ _ H) as Hlt.
    destruct m as [|m]; [lia|].
    destruct s as [|c s]; [done|]. cbn [scan_once] in H |- *.
    pose proof (skip_ws_length s) as Hws.
    destruct (Ascii.eqb c dquote); [done|].
    destruct (Ascii.eqb c "{").
    { destruct (skip_ws s) as [|c1 r1]; [done|].
      destruct (Ascii.eqb c1 "}"); [done|].
      destruct (Ascii.eqb c1 dquote); [|done].
      apply (IHp _ _ _ _ _ H). cbn in *. lia. }
    destruct (Ascii.eqb c "["); [|done].
    destruct (skip_ws s) as [|c1 r1]; [done|].
    destruct (Ascii.eqb c1 "]"); [done|].
    apply (IHi _ _ _ _ _ H). cbn in *. lia.
  - intros s acc v r m H Hm.
    pose proof (proj1 (proj2 (scan_consumes (S n))) _ _ _ _ H) as Hlt.
    destruct m as [|m]; [lia|].
    rewrite parse_items_S in H |- *.
    destruct (scan_once n s) as [[v1 r1]|] eqn:E; [|done].
    pose proof (proj1 (scan_consumes n) _ _ _ E) as Hlt1.
    pose proof (skip_ws_length r1) as Hws.
    destruct (skip_ws r1) as [|c r'] eqn:Er1; [done|].
    destruct (Ascii.eqb c "]") eqn:Ec.
    + injection H as <- <-. rewrite (IHs _ _ _ m E) by (cbn in *; lia).
      by rewrite Er1, Ec.
    + destruct (Ascii.eqb c ",") eqn:Ec'; [|done].
      pose proof (proj1 (proj2 (scan_consumes n)) _ _ _ _ H) as Hlt2.
      pose proof (skip_ws_length r') as Hws'.
      rewrite (IHs _ _ _ m E) by (cbn in *; lia). rewrite Er1, Ec, Ec'.
      apply (IHi _ _ _ _ _ H). cbn in *. lia.
  - intros s acc v r m H Hm.
    pose proof (proj2 (proj2 (scan_consumes (S n))) _ _ _ _ H) as Hlt.
    destruct m as [|m]; [lia|].
    rewrite parse_pairs_S in H |- *.
    destruct (scanstring s) as [[key r0]|] eqn:E0; [|done].
    apply scanstring_length in E0.
    pose proof (skip_ws_length r0) as Hws.
    destruct (skip_ws r0) as [|c r1]; [done|].
    destruct (Ascii.eqb c ":"); [|done].
    destruct (scan_once n (skip_ws r1)) as [[v1 r2]|] eqn:E; [|done].
    pose proof (proj1 (scan_consumes n) _ _ _ E) as Hlt1.
    pose proof (skip_ws_length r1) as Hws1. pose proof (skip_ws_length r2) as Hws2.
    destruct (skip_ws r2) as [|c2 r3] eqn:Er2; [done|].
    destruct (Ascii.eqb c2 "}") eqn:Ec.
    + injection H as <- <-. rewrite (IHs _ _ _ m E) by (cbn in *; lia).
      by rewrite Er2, Ec.
    + destruct (Ascii.eqb c2 ",") eqn:Ec'; [|done].
      pose proof (skip_ws_length r3) as Hws3.
      destruct (skip_ws r3) as [|c3 r4] eqn:Er3; [done|].
      destruct (Ascii.eqb c3 dquote) eqn:Ec3; [|done].
      pose proof (proj2 (proj2 (scan_consumes n)) _ _ _ _ H) as Hlt2.
      rewrite (IHs _ _ _ m E) by (cbn in *; lia). rewrite Er2, Ec, Ec', Er3, Ec3.
      apply (IHp _ _ _ _ _ H). cbn in *. lia.
Qed.

(** The bound that [json_loads] passes is never the reason for a
    rejection: whatever the scanner reads with some bound, it reads with
    the bound used by [json_loads]. *)
Lemma scan_once_any_bound n s v r :
  scan_once n s = Some (v, r) -> scan_once (S (length s)) s = Some (v, r).
Proof.
  intros H. apply (proj1 (scan_fuel n) _ _ _ _ H). lia.
Qed.

Lemma json_loads_any_bound n s v r :
  scan_once n (skip_ws (chars s)) = Some (v, r) -> skip_ws r = [] ->
  json_loads s = Some v.
Proof.
  intros H Hr. unfold json_loads. by rewrite (scan_once_any_bound _ _ _ _ H), Hr.
Qed.

(** ** Facts about ChatDatabase *)

Section DatabaseFacts.

Context {QE : QueryEngine} (env : Env).

Lemma touch_session_spec session_id w :
  exists w',
    touch_session env session_id w = Ok tt w' /\
    messages w' = messages w /\ next_id w' = next_id w /\ trace w' = trace w /\
    (sessions w !! session_id = None -> w' = w).
Proof.
  unfold touch_session, bind, query_session.
  destruct (sessions w !! session_id) as [s|] eqn:E.
  - eexists. split; [reflexivity|]. cbn. repeat split; done.
  - exists w. repeat split; done.
Qed.

Lemma flush_insert_cases session_id role content metadata w :
  (exists e,
     flush_insert env session_id role content (dump_metadata metadata) w = Raise e w /\
     (bind_text env content = inl e \/
      (fk_enforced env = true /\ sessions w !! session_id = None /\
       exc_cls e = IntegrityError))) \/
  (exists text,
     bind_text env content = inr text /\
     (fk_enforced env = true -> is_Some (sessions w !! session_id)) /\
     flush_insert env session_id role content (dump_metadata metadata) w
     = Ok (inserted_row env session_id role text metadata w)
          (after_insert (inserted_row env session_id role text metadata w) w)).
Proof.
  unfold flush_insert, bind, lift_sum.
  destruct (bind_text env content) as [e|text] eqn:Hb; cbn.
  { left. exists e. by split; [|left]. }
  destruct (fk_enforced env) eqn:Hen; cbn.
  - destruct (sessions w !! session_id) as [s|] eqn:Hs; cbn.
    + right. exists text. repeat split; eauto.
    + left. eexists. split; [reflexivity|]. right. done.
  - right. exists text. repeat split; done.
Qed.

Lemma add_message_Ok session_id role content metadata w mid w' :
  add_message env session_id role content metadata w = Ok mid w' ->
  exists text,
    bind_text env content = inr text /\
    mid = next_id w /\
    messages w' = (messages w ++ [inserted_row env session_id role text metadata w])%list /\
    next_id w' = (next_id w + 1)%Z /\
    trace w' = trace w /\
    (fk_enforced env = true -> is_Some (sessions w !! session_id)).
Proof.
  unfold add_message, bind.
  destruct (flush_insert_cases session_id role content metadata w)
    as [(e & -> & _)|(text & Hb & Hfk & ->)]; [done|].
  destruct (touch_session_spec session_id
              (after_insert (inserted_row env session_id role text metadata w) w))
    as (w2 & -> & Hm & Hn & Htr & _).
  intros [= <- <-]. exists text. rewrite Hm, Hn, Htr. done.
Qed.

Lemma add_message_Raise session_id role content metadata w e w' :
  add_message env session_id role content metadata w = Raise e w' ->
  w' = w /\
  (bind_text env content = inl e \/
   (fk_enforced env = true /\ sessions w !! session_id = None /\
    exc_cls e = IntegrityError)).
Proof.
  unfold add_message, bind.
  destruct (flush_insert_cases session_id role content metadata w)
    as [(e0 & -> & H)|(text & Hb & Hfk & ->)].
  - by intros [= <- <-].
  - destruct (touch_session_spec session_id
                (after_insert (inserted_row env session_id role text metadata w) w))
      as (w2 & -> & _). done.
Qed.


End DatabaseFacts.


(** ** Facts about the history read path *)

Section HistoryFacts.

Context {QE : QueryEngine} (env : Env).

Lemma map_sum_Forall2 {A B} (f : A -> exc + B) l ys :
  map_sum f l = inr ys <-> Forall2 (fun x y => f x = inr y) l ys.
Proof.
  revert ys. induction l as [|x l IH]; intros ys; cbn.
  - split; [intros [= <-]; constructor|by inversion 1].
  - destruct (f x) as [e|y] eqn:Ef.
    + split; [done|]. inversion 1; congruence.
    + destruct (map_sum f l) as [e|ys'] eqn:El.
      * split; [done|]. inversion 1 as [|???? _ Hl]; subst.
        apply IH in Hl. done.
      * split.
        -- intros [= <-]. constructor; [done|]. by apply IH.
        -- inversion 1 as [|???? Hy Hl]; subst. apply IH in Hl.
           congruence.
Qed.

Lemma map_sum_total {A B} (f : A -> exc + B) l :
  (forall x, x ∈ l -> exists y, f x = inr y) -> exists ys, map_sum f l = inr ys.
Proof.
  induction l as [|x l IH]; intros H; cbn; [by eexists|].
  destruct (H x) as [y ->]; [left|].
  destruct IH as [ys ->]; [|by eexists].
  intros x' Hx'. apply H. by right.
Qed.

Lemma of_session_app session_id l row :
  ChatMessage.session_id row = session_id ->
  of_session session_id (l ++ [row]) = (of_session session_id l ++ [row])%list.
Proof.
  intros H. unfold of_session. rewrite filter_app. f_equal.
  rewrite filter_cons. destruct (decide _); [done|congruence].
Qed.

Lemma get_session_history_Ok session_id w h w0 :
  get_session_history session_id w = Ok h w0 ->
  w0 = w /\ Forall2 (fun m e => entry_of_message m = inr e) (history_rows session_id w) h.
Proof.
  unfold get_session_history, lift_sum.
  destruct (map_sum entry_of_message (history_rows session_id w)) as [e|ys] eqn:E; [done|].
  intros [= <- <-]. split; [done|]. by apply map_sum_Forall2.
Qed.

(** Reading the history back after an append: the appended row is there,
    with the metadata that its stored text decodes to. *)
Lemma history_after_add session_id role content metadata w mid w' h0 w0 md :
  get_session_history session_id w = Ok h0 w0 ->
  add_message env session_id role content metadata w = Ok mid w' ->
  load_metadata (dump_metadata metadata) = inr md ->
  exists h text,
    get_session_history session_id w' = Ok h w' /\
    bind_text env content = inr text /\
    HistoryEntry.mk mid role text md (clock env (ticks w)) ∈ h /\
    length h = S (length h0).
Proof.
  intros Hh0 Hadd Hmd.
  apply get_session_history_Ok in Hh0 as [-> Hh0].
  apply add_message_Ok in Hadd as (text & Hb & -> & Hmsgs & _).
  set (row := inserted_row env session_id role text metadata w) in *.
  assert (Hrows : history_rows session_id w'
                  ≡ₚ (history_rows session_id w ++ [row])%list).
  { unfold history_rows. rewrite Hmsgs, of_session_app by done.
    by rewrite !asc_Permutation. }
  assert (Hrow : entry_of_message row
                 = inr (HistoryEntry.mk (next_id w) role text md (clock env (ticks w)))).
  { unfold entry_of_message, row, inserted_row. cbn. by rewrite Hmd. }
  destruct (map_sum_total entry_of_message (history_rows session_id w')) as [h Hh].
  { intros x Hx. rewrite Hrows in Hx. apply elem_of_app in Hx as [Hx|Hx].
    - apply list_elem_of_lookup in Hx as [i Hi].
      destruct (Forall2_lookup_l _ _ _ _ _ Hh0 Hi) as (y & _ & Hy). eauto.
    - apply list_elem_of_singleton in Hx as ->. eauto. }
  exists h, text. unfold get_session_history. rewrite Hh. cbn.
  apply map_sum_Forall2 in Hh.
  repeat split; [done| |].
  - assert (Hin : row ∈ history_rows session_id w').
    { rewrite Hrows. apply elem_of_app. right. by left. }
    apply list_elem_of_lookup in Hin as [i Hi].
    destruct (Forall2_lookup_l _ _ _ _ _ Hh Hi) as (y & Hy & Hey).
    rewrite Hrow in Hey. injection Hey as <-.
    apply list_elem_of_lookup. eauto.
  - rewrite <- (Forall2_length _ _ _ Hh), Hrows, length_app.
    rewrite (Forall2_length _ _ _ Hh0). cbn. lia.
Qed.

Lemma load_dumped_metadata metadata :
  metadata <> [] -> json_able (PDict metadata) = true ->
  load_metadata (dump_metadata (Some metadata)) = inr (PDict metadata).
Proof.
  intros Hne Hable. destruct metadata as [|kv d]; [done|].
  unfold dump_metadata, load_metadata.
  pose proof (loads_dumps (PDict (kv :: d)) Hable) as Hrt.
  destruct (json_dumps (PDict (kv :: d))) eqn:E; [discriminate E|].
  by rewrite Hrt.
Qed.

(** C6. A message appended with a non-empty metadata dict (string keys,
    values built from None, booleans, integers, strings, lists and
    dicts) is read back by get_session_history with a metadata value
    equal to that dict: the history after the append has one more entry,
    and the entry of the appended message carries the dict. *)
Theorem metadata_round_trip session_id role content metadata w mid w' h0 w0 :
  metadata <> [] -> json_able (PDict metadata) = true ->
  get_session_history session_id w = Ok h0 w0 ->
  add_message env session_id role content (Some metadata) w = Ok mid w' ->
  exists h text,
    get_session_history session_id w' = Ok h w' /\
    bind_text env content = inr text /\
    HistoryEntry.mk mid role text (PDict metadata) (clock env (ticks w)) ∈ h /\
    length h = S (length h0).
Proof.
  intros Hne Hable Hh0 Hadd.
  eapply history_after_add; eauto using load_dumped_metadata.
Qed.

(** C10. A message appended with the empty dict as metadata is stored
    with metadata_json NULL, exactly as if no metadata had been given,
    and get_session_history returns None, not an empty dict, as the
    metadata of that message. *)
Theorem empty_metadata_reads_back_as_None session_id role content w mid w' h0 w0 :
  get_session_history session_id w = Ok h0 w0 ->
  add_message env session_id role content (Some []) w = Ok mid w' ->
  exists h text,
    messages w'
    = (messages w
       ++ [ChatMessage.mk mid session_id role text None (clock env (ticks w))])%list /\
    get_session_history session_id w' = Ok h w' /\
    HistoryEntry.mk mid role text PNone (clock env (ticks w)) ∈ h /\
    PNone <> PDict [].
Proof.
  intros Hh0 Hadd.
  destruct (history_after_add _ _ _ _ _ _ _ _ _ PNone Hh0 Hadd eq_refl)
    as (h & text & Hh & Hb & Hin & _).
  apply add_message_Ok in Hadd as (text' & Hb' & -> & Hmsgs & _).
  assert (text' = text) as -> by congruence.
  exists h, text. done.
Qed.

End HistoryFacts.

Lemma metadata_round_trip_witness :
  exists h text,
    get_session_history (QE := insertion_order_engine) Scenario.sid
      (Scenario.appended (Some [("a", PInt 1)]))
    = Ok h (Scenario.appended (Some [("a", PInt 1)])) /\
    bind_text Scenario.offline (PStr "Who was Gandhi?") = inr text /\
    HistoryEntry.mk 1 user text (PDict [("a", PInt 1)]) 1700000000 ∈ h /\
    length h = 1%nat.
Proof.
  apply (metadata_round_trip (QE := insertion_order_engine)
           Scenario.offline Scenario.sid user (PStr "Who was Gandhi?")
           [("a", PInt 1)] Scenario.empty_session 1 _ [] Scenario.empty_session);
    [discriminate | reflexivity | reflexivity | reflexivity].
Defined.

Lemma empty_metadata_witness :
  exists h text,
    messages (Scenario.appended (Some []))
    = [ChatMessage.mk 1 Scenario.sid user text None 1700000000] /\
    get_session_history (QE := insertion_order_engine) Scenario.sid
      (Scenario.appended (Some []))
    = Ok h (Scenario.appended (Some [])) /\
    HistoryEntry.mk 1 user text PNone 1700000000 ∈ h /\
    PNone <> PDict [].
Proof.
  apply (empty_metadata_reads_back_as_None (QE := insertion_order_engine)
           Scenario.offline Scenario.sid user (PStr "Who was Gandhi?")
           Scenario.empty_session 1 _ [] Scenario.empty_session);
    reflexivity.
Defined.

(** ** The sliding window against the full history *)

Section WindowFacts.

Context {QE : QueryEngine} (env : Env).








End WindowFacts.



(** ** Facts about the answer engine *)

Section EngineFacts.

Context {QE : QueryEngine} (env : Env).

Lemma create_completion_spec req w :
  create_completion env req w =
  match chat_completion env (trace w ++ [EvGenerate req]) req with
  | inl e => Raise e (log (EvGenerate req) w)
  | inr s => Ok s (log (EvGenerate req) w)
  end.
Proof.
  unfold create_completion, bind, emit, lift_sum. cbn.
  by destruct (chat_completion env _ req).
Qed.

(** The decision table of phase 1, for a non-empty window. *)
Lemma try_answer_from_history_spec question history w :
  history <> [] ->
  let req := history_request question history in
  let w1 := log (EvGenerate req) w in
  try_answer_from_history env question history w =
  match chat_completion env (trace w1) req with
  | inl e => except_phase1 e w1
  | inr raw =>
      match json_loads raw with
      | None => Ok need_more_context w1
      | Some v =>
          match py_contains "status" v with
          | inl e => except_phase1 e w1
          | inr false => Ok need_more_context w1
          | inr true =>
              match py_contains "content" v with
              | inl e => except_phase1 e w1
              | inr false => Ok need_more_context w1
              | inr true => Ok v w1
              end
          end
      end
  end.
Proof.
  intros Hne req w1. destruct history as [|t history]; [done|].
  unfold try_answer_from_history, try_except, bind.
  rewrite create_completion_spec. fold req. fold w1.
  change (trace w ++ [EvGenerate req]) with (trace w1).
  destruct (chat_completion env (trace w1) req) as [e|raw]; [done|].
  unfold loads. destruct (json_loads raw) as [v|]; [|done].
  cbn [ret]. unfold lift_sum.
  destruct (py_contains "status" v) as [e|[]]; [done| |done].
  cbn [negb ret raise]. destruct (py_contains "content" v) as [e|[]]; done.
Qed.

Lemma answer_with_retrieval_spec question history top_k w :
  let w1 := log (EvRetrieve question top_k) w in
  answer_with_retrieval env question history top_k w =
  match query_vector_db env (trace w1) question top_k with
  | inl e => Raise e w1
  | inr chunks =>
      let req := retrieval_request question history chunks in
      match chat_completion env (trace (log (EvGenerate req) w1)) req with
      | inl e => Raise e (log (EvGenerate req) w1)
      | inr answer => Ok (answer, chunks) (log (EvGenerate req) w1)
      end
  end.
Proof.
  intros w1. unfold answer_with_retrieval, step3_retrieve, bind, emit, lift_sum.
  fold w1. destruct (query_vector_db env (trace w1) question top_k) as [e|chunks]; [done|].
  cbn [ret]. rewrite create_completion_spec.
  by destruct (chat_completion env _ _).
Qed.

Lemma new_events_log {A} (r : res A) w evs :
  trace (final_world r) = trace w ++ evs -> new_events w r = evs.
Proof. intros H. unfold new_events. by rewrite H, drop_app_length. Qed.

(** C5. When the phase-1 generation call fails with any exception other
    than a JSONDecodeError, try_answer_from_history raises a
    RuntimeError whose message is "LLM error: " followed by the text of
    the cause and whose cause is that exception; the call was made
    exactly once (no retry), and the outcome is not a returned value, so
    in particular not the soft failure value. *)
Theorem phase1_service_error_is_raised question history w e :
  history <> [] ->
  chat_completion env (trace w ++ [EvGenerate (history_request question history)])
    (history_request question history) = inl e ->
  is_JSONDecodeError e = false ->
  try_answer_from_history env question history w
  = Raise (Exc RuntimeError ("LLM error: " ++ exc_msg e)%string (Some e))
          (log (EvGenerate (history_request question history)) w) /\
  new_events w (try_answer_from_history env question history w)
  = [EvGenerate (history_request question history)] /\
  forall w', try_answer_from_history env question history w <> Ok need_more_context w'.
Proof.
  intros Hne Hcall Hcls.
  assert (Heq : try_answer_from_history env question history w
                = Raise (Exc RuntimeError ("LLM error: " ++ exc_msg e)%string (Some e))
                        (log (EvGenerate (history_request question history)) w)).
  { rewrite try_answer_from_history_spec by done. cbn [log trace]. rewrite Hcall.
    unfold except_phase1. by rewrite Hcls. }
  rewrite Heq. split; [done|]. split; [|done]. by apply new_events_log.
Qed.

(** What a response that cannot be decoded, or that decodes to an
    object without one of the two fields, leads to: the soft failure. *)
Lemma undecodable_response_is_soft_failure question history w raw :
  history <> [] ->
  chat_completion env (trace w ++ [EvGenerate (history_request question history)])
    (history_request question history) = inr raw ->
  json_loads raw = None ->
  try_answer_from_history env question history w
  = Ok need_more_context (log (EvGenerate (history_request question history)) w).
Proof.
  intros Hne Hcall Hdec. rewrite try_answer_from_history_spec by done.
  cbn [log trace]. by rewrite Hcall, Hdec.
Qed.

Lemma object_lacking_field_is_soft_failure question history w raw d :
  history <> [] ->
  chat_completion env (trace w ++ [EvGenerate (history_request question history)])
    (history_request question history) = inr raw ->
  json_loads raw = Some (PDict d) ->
  dict_get d "status" = None \/ dict_get d "content" = None ->
  try_answer_from_history env question history w
  = Ok need_more_context (log (EvGenerate (history_request question history)) w).
Proof.
  intros Hne Hcall Hdec Hmiss. rewrite try_answer_from_history_spec by done.
  cbn [log trace]. rewrite Hcall, Hdec. cbn [py_contains].
  destruct (dict_get d "status") as [s|] eqn:Es; [|done].
  destruct (dict_get d "content") as [c|] eqn:Ec; [|done].
  by destruct Hmiss.
Qed.

(** A response that decodes to a number, a boolean or null: the
    membership test raises TypeError, which the handler for Exception
    turns into a RuntimeError. *)
Lemma scalar_response_raises question history w raw v :
  history <> [] ->
  chat_completion env (trace w ++ [EvGenerate (history_request question history)])
    (history_request question history) = inr raw ->
  json_loads raw = Some v -> is_scalar v = true ->
  exists msg,
    try_answer_from_history env question history w
    = Raise (Exc RuntimeError ("LLM error: " ++ msg)%string
               (Some (Exc TypeError msg None)))
            (log (EvGenerate (history_request question history)) w).
Proof.
  intros Hne Hcall Hdec Hsc. rewrite try_answer_from_history_spec by done.
  cbn [log trace]. rewrite Hcall, Hdec.
  destruct v; try discriminate Hsc; cbn [py_contains]; by eexists.
Qed.

End EngineFacts.

Lemma phase1_service_error_witness :
  try_answer_from_history Scenario.offline "Where was he born?"
    [Turn.mk user "Who was Gandhi?"] Scenario.one_exchange
  = Raise (Exc RuntimeError "LLM error: Connection error."
             (Some (Exc (OtherError "APIConnectionError") "Connection error." None)))
          (log (EvGenerate (history_request "Where was he born?"
                              [Turn.mk user "Who was Gandhi?"]))
             Scenario.one_exchange).
Proof.
  apply (phase1_service_error_is_raised Scenario.offline "Where was he born?"
           [Turn.mk user "Who was Gandhi?"] Scenario.one_exchange
           (Exc (OtherError "APIConnectionError") "Connection error." None));
    [discriminate | reflexivity | reflexivity].
Defined.

(** C2 at the response 42: the text is valid JSON and has no "status"
    field, yet try_answer_from_history does not return the failure
    value; it raises RuntimeError, and so does run_text, before any
    retrieval and without persisting anything. *)
Theorem scalar_json_response_raises :
  try_answer_from_history (Scenario.scripted (inr "42")) "Where was he born?"
    [Turn.mk user "Who was Gandhi?"] Scenario.one_exchange
  = Raise (Exc RuntimeError "LLM error: argument of type 'int' is not iterable"
             (Some (Exc TypeError "argument of type 'int' is not iterable" None)))
          (log (EvGenerate (history_request "Where was he born?"
                              [Turn.mk user "Who was Gandhi?"]))
             Scenario.one_exchange) /\
  exists w',
    run_text (QE := insertion_order_engine) (Scenario.scripted (inr "42"))
      "Where was he born?" Scenario.sid Scenario.one_exchange
    = Raise (Exc RuntimeError "LLM error: argument of type 'int' is not iterable"
               (Some (Exc TypeError "argument of type 'int' is not iterable" None))) w' /\
    messages w' = messages Scenario.one_exchange /\
    existsb (fun ev => match ev with EvRetrieve _ _ => true | _ => false end) (trace w')
    = false.
Proof.
  split; [reflexivity|]. eexists. split; [vm_compute; reflexivity|].
  split; reflexivity.
Qed.

(** The same slip on a response that decodes to an array naming both
    fields: it passes the two membership tests, is returned as it is,
    and run_text fails on result["status"] with a TypeError. *)
Lemma array_naming_both_fields_raises :
  try_answer_from_history (Scenario.scripted (inr Scenario.names_json))
    "Where was he born?" [Turn.mk user "Who was Gandhi?"] Scenario.one_exchange
  = Ok (PList [PStr "status"; PStr "content"])
       (log (EvGenerate (history_request "Where was he born?"
                           [Turn.mk user "Who was Gandhi?"]))
          Scenario.one_exchange) /\
  exists w',
    run_text (QE := insertion_order_engine) (Scenario.scripted (inr Scenario.names_json))
      "Where was he born?" Scenario.sid Scenario.one_exchange
    = Raise (Exc TypeError "list indices must be integers or slices, not str" None) w' /\
    messages w' = messages Scenario.one_exchange.
Proof.
  split; [reflexivity|]. eexists. split; [vm_compute; reflexivity|reflexivity].
Qed.

(** ** Facts about the orchestration: run and run_text *)

Section RunFacts.

Context {QE : QueryEngine} (env : Env).

Lemma add_message_trace session_id role content metadata w :
  trace (final_world (add_message env session_id role content metadata w)) = trace w.
Proof.
  destruct (add_message env session_id role content metadata w) as [mid w'|e w'] eqn:E.
  - by apply add_message_Ok in E as (text & _ & _ & _ & _ & Ht & _).
  - by apply add_message_Raise in E as [-> _].
Qed.

(** Step 6 of run and step 4 of run_text: the two appends. *)
Lemma persist_spec {A} session_id c1 md1 c2 md2 (x : A) w :
  let r := bind (add_message env session_id user c1 md1)
             (fun _ => bind (add_message env session_id assistant c2 md2)
                         (fun _ => ret x)) w in
  trace (final_world r) = trace w /\
  forall out w',
    r = Ok out w' ->
    out = x /\
    exists id1 id2 t1 t2 text1 text2,
      bind_text env c1 = inr text1 /\ bind_text env c2 = inr text2 /\
      id1 = next_id w /\ id2 = (next_id w + 1)%Z /\
      messages w'
      = messages w
        ++ [ChatMessage.mk id1 session_id user text1 (dump_metadata md1) t1;
            ChatMessage.mk id2 session_id assistant text2 (dump_metadata md2) t2].
Proof.
  cbv zeta. unfold bind.
  pose proof (add_message_trace session_id user c1 md1 w) as Ht1.
  destruct (add_message env session_id user c1 md1 w) as [mid1 w1|e1 w1] eqn:E1.
  2:{ split; [done|]. done. }
  pose proof (add_message_trace session_id assistant c2 md2 w1) as Ht2.
  destruct (add_message env session_id assistant c2 md2 w1) as [mid2 w2|e2 w2] eqn:E2.
  2:{ split; [cbn in *; congruence|done]. }
  cbn in Ht1, Ht2. split; [cbn; congruence|].
  intros out w' [= <- <-]. split; [done|].
  apply add_message_Ok in E1 as (text1 & Hb1 & _ & Hm1 & Hn1 & _).
  apply add_message_Ok in E2 as (text2 & Hb2 & _ & Hm2 & _).
  eexists _, _, _, _, text1, text2. split; [done|]. split; [done|].
  split; [reflexivity|]. split; [reflexivity|].
  rewrite Hm2, Hm1, <- app_assoc. cbn [app]. unfold inserted_row. by rewrite Hn1.
Qed.

Lemma answer_question_empty question w :
  answer_question env question [] w
  = bind (answer_with_retrieval env question [] TOP_K_RETRIEVAL)
      (fun '(answer, chunks) => ret (PStr answer, "vectordb"%string, Some chunks)) w.
Proof. reflexivity. Qed.

Lemma same_store_refl w : same_store w w.
Proof. done. Qed.








Lemma step2_translate_spec text source_language w :
  step2_translate env text source_language w =
  if String.prefix "en" source_language then Ok text w
  else
    match translate_to_english env (trace w ++ [EvTranslate text source_language])
            text source_language with
    | inl e => Raise e (log (EvTranslate text source_language) w)
    | inr translated => Ok translated (log (EvTranslate text source_language) w)
    end.
Proof.
  unfold step2_translate. destruct (String.prefix "en" source_language); [done|].
  unfold call_translate_to_english, bind, emit, lift_sum. cbn.
  by destruct (translate_to_english env _ text source_language).
Qed.



End RunFacts.


(** ** Routing: which path answers *)

Section RoutingFacts.

Context {QE : QueryEngine} (env : Env).

Lemma py_eq_str_spec v s : py_eq_str v s = true <-> v = PStr s.
Proof.
  destruct v; cbn; try by split.
  rewrite String.eqb_eq. split; [by intros ->|by intros [= ->]].
Qed.

Lemma get_recent_messages_spec session_id w :
  get_recent_messages session_id SLIDING_WINDOW_SIZE w
  = Ok (history_window session_id w) w.
Proof. reflexivity. Qed.

Lemma history_window_same_store session_id w w' :
  same_store w w' -> history_window session_id w' = history_window session_id w.
Proof. intros (_ & Hm & _). unfold history_window, recent_rows. by rewrite Hm. Qed.

Lemma retrieval_request_not_phase1 question history chunks :
  phase1_call (EvGenerate (retrieval_request question history chunks)) = false.
Proof. reflexivity. Qed.

Lemma bind_Ok_inv {A B} (m : M A) (k : A -> M B) w b w' :
  bind m k w = Ok b w' -> exists a w1, m w = Ok a w1 /\ k a w1 = Ok b w'.
Proof. unfold bind. destruct (m w) as [a w1|e w1]; [eauto|done]. Qed.

Lemma bind_trace {A B} (m : M A) (k : A -> M B) w :
  (forall a w1, trace (final_world (k a w1)) = trace w1) ->
  trace (final_world (bind m k w)) = trace (final_world (m w)).
Proof. intros Hk. unfold bind. destruct (m w) as [a w1|e w1]; [apply Hk|done]. Qed.

(** With an empty window the answer is produced by retrieval: the first
    call is the vector query and no phase-1 request is made. *)
Lemma answer_question_empty_events question w :
  exists tail,
    trace (final_world (answer_question env question [] w))
    = trace w ++ EvRetrieve question TOP_K_RETRIEVAL :: tail /\
    existsb phase1_call tail = false /\
    forall answer source chunks w',
      answer_question env question [] w = Ok (answer, source, chunks) w' ->
      source = "vectordb"%string.
Proof.
  rewrite answer_question_empty. unfold bind. rewrite answer_with_retrieval_spec.
  cbv zeta.
  destruct (query_vector_db env _ question TOP_K_RETRIEVAL) as [e|chunks].
  { exists []. by repeat split. }
  destruct (chat_completion env _ (retrieval_request question [] chunks)) as [e|answer].
  - exists [EvGenerate (retrieval_request question [] chunks)].
    cbn. rewrite <- app_assoc. by repeat split.
  - exists [EvGenerate (retrieval_request question [] chunks)].
    cbn. rewrite <- app_assoc. split; [done|]. split; [done|].
    by intros ???? [= _ <- _ _].
Qed.

(** The two appends with which run and run_text end make no call. *)
Lemma persist_trace {A} session_id c1 md1 c2 md2 (x : A) w :
  trace (final_world
           (bind (add_message env session_id user c1 md1)
              (fun _ => bind (add_message env session_id assistant c2 md2)
                          (fun _ => ret x)) w)) = trace w.
Proof. apply (persist_spec env session_id c1 md1 c2 md2 x w). Qed.

Lemma persist_Ok {A} session_id c1 md1 c2 md2 (x : A) w out w' :
  bind (add_message env session_id user c1 md1)
    (fun _ => bind (add_message env session_id assistant c2 md2)
                (fun _ => ret x)) w = Ok out w' -> out = x.
Proof.
  intros H. by apply (persist_spec env session_id c1 md1 c2 md2 x w) in H as [-> _].
Qed.

Lemma run_text_unfold message session_id w :
  run_text env message session_id w
  = bind (answer_question env message (history_window session_id w))
      (persist_text env session_id message) w.
Proof. reflexivity. Qed.

Lemma run_unfold audio_path session_id source_language w :
  run env audio_path session_id source_language w
  = bind (step1_transcribe env audio_path)
      (fun transcription =>
         bind (step2_translate env transcription source_language)
           (fun translation w2 =>
              bind (answer_question env translation (history_window session_id w2))
                (persist_audio env session_id source_language transcription translation)
                w2)) w.
Proof. reflexivity. Qed.

Lemma persist_text_trace session_id message decided w :
  trace (final_world (persist_text env session_id message decided w)) = trace w.
Proof. destruct decided as [[a s] c]. apply persist_trace. Qed.

Lemma persist_audio_trace session_id source_language tr tl decided w :
  trace (final_world (persist_audio env session_id source_language tr tl decided w)) = trace w.
Proof. destruct decided as [[a s] c]. apply persist_trace. Qed.

Lemma persist_text_Ok session_id message a s c w out w' :
  persist_text env session_id message (a, s, c) w = Ok out w' ->
  out = {| text_answer := a; text_source := s; text_retrieved_chunks := c |}.
Proof. apply persist_Ok. Qed.

Lemma persist_audio_Ok session_id source_language tr tl a s c w out w' :
  persist_audio env session_id source_language tr tl (a, s, c) w = Ok out w' ->
  out = {| transcription := tr; translation := tl; answer := a; source := s;
           retrieved_chunks := c |}.
Proof. apply persist_Ok. Qed.

Lemma step1_transcribe_spec audio_path w :
  step1_transcribe env audio_path w =
  match asr_transcribe env (trace w ++ [EvTranscribe audio_path]) audio_path with
  | inl e => Raise e (log (EvTranscribe audio_path) w)
  | inr text => Ok text (log (EvTranscribe audio_path) w)
  end.
Proof.
  unfold step1_transcribe, bind, emit, lift_sum. cbn.
  by destruct (asr_transcribe env _ audio_path).
Qed.

(** run from the point where the question is known in English. *)
Lemma run_tail_empty_window session_id source_language tr tl w w2 evs :
  history_window session_id w = [] ->
  same_store w w2 -> trace w2 = trace w ++ evs ->
  existsb phase1_call evs = false ->
  forall r,
    r = bind (answer_question env tl (history_window session_id w2))
          (persist_audio env session_id source_language tr tl) w2 ->
    existsb phase1_call (new_events w r) = false /\
    forall out w', r = Ok out w' ->
      source out = "vectordb"%string /\
      EvRetrieve (translation out) TOP_K_RETRIEVAL ∈ new_events w r.
Proof.
  intros Hempty Hst Htr2 Hevs r ->.
  rewrite (history_window_same_store _ _ _ Hst), Hempty.
  destruct (answer_question_empty_events tl w2) as (tail & Htr & Htail & Hsrc).
  rewrite (new_events_log _ w (evs ++ EvRetrieve tl TOP_K_RETRIEVAL :: tail)).
  2:{ rewrite bind_trace by apply persist_audio_trace.
      by rewrite Htr, Htr2, <- app_assoc. }
  split; [by rewrite existsb_app, Hevs|].
  intros out w' (([a s] & c) & w1 & Ha & Hka)%bind_Ok_inv.
  apply persist_audio_Ok in Hka as ->. cbn. split; [by eapply Hsrc|].
  apply elem_of_app. right. by left.
Qed.

(** C1. When the fetched history window of a session is empty,
    try_answer_from_history returns the failure value
    {status: failure, content: "Need more context"} and leaves the world
    as it is, so no generation call is made; run_text then makes the
    vector query as its first call and makes no phase-1 request, and
    when it returns its source is "vectordb"; run makes no phase-1
    request either, and when it returns its source is "vectordb" and
    the vector query for the translated question has been made. *)
Theorem empty_window_goes_to_retrieval session_id w :
  history_window session_id w = [] ->
  (forall question w0,
     try_answer_from_history env question [] w0 = Ok need_more_context w0) /\
  (forall message,
     existsb phase1_call (new_events w (run_text env message session_id w)) = false /\
     head (new_events w (run_text env message session_id w))
     = Some (EvRetrieve message TOP_K_RETRIEVAL) /\
     forall out w',
       run_text env message session_id w = Ok out w' ->
       text_source out = "vectordb"%string) /\
  (forall audio_path source_language,
     existsb phase1_call
       (new_events w (run env audio_path session_id source_language w)) = false /\
     forall out w',
       run env audio_path session_id source_language w = Ok out w' ->
       source out = "vectordb"%string /\
       EvRetrieve (translation out) TOP_K_RETRIEVAL
       ∈ new_events w (run env audio_path session_id source_language w)).
Proof.
  intros Hempty. split; [done|]. split.
  - intros message. rewrite run_text_unfold, Hempty.
    destruct (answer_question_empty_events message w) as (tail & Htr & Htail & Hsrc).
    rewrite (new_events_log _ w (EvRetrieve message TOP_K_RETRIEVAL :: tail)).
    2:{ by rewrite bind_trace by apply persist_text_trace. }
    split; [done|]. split; [done|].
    intros out w' (([a s] & c) & w1 & Ha & Hka)%bind_Ok_inv.
    apply persist_text_Ok in Hka as ->. cbn. by eapply Hsrc.
  - intros audio_path source_language.
    remember (run env audio_path session_id source_language w) as r eqn:Hr.
    rewrite run_unfold in Hr. unfold bind at 1 in Hr.
    rewrite step1_transcribe_spec in Hr.
    set (ev0 := EvTranscribe audio_path) in Hr.
    destruct (asr_transcribe env (trace w ++ [ev0]) audio_path) as [e|tr].
    { subst r. rewrite (new_events_log _ w [ev0]) by done. by split. }
    unfold bind at 1 in Hr. rewrite step2_translate_spec in Hr.
    destruct (String.prefix "en" source_language).
    + by apply (run_tail_empty_window session_id source_language tr tr w
                  (log ev0 w) [ev0]).
    + set (ev1 := EvTranslate tr source_language) in Hr.
      destruct (translate_to_english env _ tr source_language) as [e|tl].
      { subst r. rewrite (new_events_log _ w [ev0; ev1]).
        2:{ cbn. by rewrite <- app_assoc. }
        by split. }
      apply (run_tail_empty_window session_id source_language tr tl w
               (log ev1 (log ev0 w)) [ev0; ev1]); try done.
      cbn. by rewrite <- app_assoc.
Qed.

(** C9. When the phase-1 response decodes to an object that has both
    fields, try_answer_from_history returns it, and the engine answers
    from history (source "history", answer the content field, no
    retrieval) exactly when the status field is the string "success";
    with any other status value it continues, without raising at that
    point, with retrieval, and a run_text that returns then has source
    "vectordb". *)
Theorem history_path_iff_status_success session_id message w raw d status content :
  history_window session_id w <> [] ->
  chat_completion env
    (trace w ++ [EvGenerate (history_request message (history_window session_id w))])
    (history_request message (history_window session_id w)) = inr raw ->
  json_loads raw = Some (PDict d) ->
  dict_get d "status" = Some status ->
  dict_get d "content" = Some content ->
  try_answer_from_history env message (history_window session_id w) w
  = Ok (PDict d)
       (log (EvGenerate (history_request message (history_window session_id w))) w) /\
  (status = PStr "success" ->
   answer_question env message (history_window session_id w) w
   = Ok (content, "history"%string, None)
        (log (EvGenerate (history_request message (history_window session_id w))) w)) /\
  (status <> PStr "success" ->
   answer_question env message (history_window session_id w) w
   = bind (answer_with_retrieval env message (history_window session_id w)
             TOP_K_RETRIEVAL)
       (fun '(answer, chunks) => ret (PStr answer, "vectordb"%string, Some chunks))
       (log (EvGenerate (history_request message (history_window session_id w))) w)) /\
  (forall out w',
     run_text env message session_id w = Ok out w' ->
     (text_source out = "history"%string <-> status = PStr "success") /\
     (status = PStr "success" ->
      text_answer out = content /\ text_retrieved_chunks out = None)).
Proof.
  intros Hne Hcall Hdec Hst Hct.
  set (history := history_window session_id w) in *.
  set (w1 := log (EvGenerate (history_request message history)) w).
  assert (Htry : try_answer_from_history env message history w = Ok (PDict d) w1).
  { rewrite try_answer_from_history_spec by done. cbn [log trace].
    rewrite Hcall, Hdec. cbn [py_contains]. rewrite Hst, Hct. reflexivity. }
  assert (Hyes : status = PStr "success" ->
                 answer_question env message history w
                 = Ok (content, "history"%string, None) w1).
  { intros ->. unfold answer_question, bind. rewrite Htry.
    cbn [py_getitem]. rewrite Hst. cbn [lift_sum ret py_eq_str String.eqb].
    rewrite Hct. reflexivity. }
  assert (Hno : status <> PStr "success" ->
                answer_question env message history w
                = bind (answer_with_retrieval env message history TOP_K_RETRIEVAL)
                    (fun '(answer, chunks) =>
                       ret (PStr answer, "vectordb"%string, Some chunks)) w1).
  { intros Hns. unfold answer_question. unfold bind at 1. rewrite Htry.
    cbv beta iota. cbn [py_getitem]. rewrite Hst. cbn [lift_sum].
    unfold bind at 1. cbn [ret].
    destruct (py_eq_str status "success") eqn:E; [by apply py_eq_str_spec in E|].
    reflexivity. }
  split; [done|]. split; [done|]. split; [done|].
  intros out w'. rewrite run_text_unfold. fold history.
  intros (([a s] & c) & w2 & Ha & Hka)%bind_Ok_inv.
  apply persist_text_Ok in Hka as ->. cbn.
  destruct (py_eq_str status "success") eqn:E.
  - apply py_eq_str_spec in E. rewrite (Hyes E) in Ha. injection Ha as <- <- <- <-.
    done.
  - assert (Hns : status <> PStr "success").
    { intros Hs. apply py_eq_str_spec in Hs. congruence. }
    rewrite (Hno Hns) in Ha.
    apply bind_Ok_inv in Ha as ([a' c'] & w3 & _ & [= <- <- <- <-]).
    split; [|done]. split; [done|by intros ?].
Qed.

End RoutingFacts.

Lemma empty_window_witness :
  head (new_events Scenario.empty_session
          (run_text (QE := insertion_order_engine) Scenario.offline
             "Who was Gandhi?" Scenario.sid Scenario.empty_session))
  = Some (EvRetrieve "Who was Gandhi?" TOP_K_RETRIEVAL).
Proof.
  apply (empty_window_goes_to_retrieval (QE := insertion_order_engine)
           Scenario.offline Scenario.sid Scenario.empty_session).
  reflexivity.
Defined.

Lemma history_path_witness :
  answer_question (Scenario.scripted (inr Scenario.partial_json)) "Where was he born?"
    (history_window (QE := insertion_order_engine) Scenario.sid Scenario.one_exchange)
    Scenario.one_exchange
  = bind (answer_with_retrieval (Scenario.scripted (inr Scenario.partial_json))
            "Where was he born?"
            (history_window (QE := insertion_order_engine) Scenario.sid
               Scenario.one_exchange)
            TOP_K_RETRIEVAL)
      (fun '(answer, chunks) => ret (PStr answer, "vectordb"%string, Some chunks))
      (log (EvGenerate
              (history_request "Where was he born?"
                 (history_window (QE := insertion_order_engine) Scenario.sid
                    Scenario.one_exchange)))
         Scenario.one_exchange).
Proof.
  apply (history_path_iff_status_success (QE := insertion_order_engine)
           (Scenario.scripted (inr Scenario.partial_json)) Scenario.sid
           "Where was he born?" Scenario.one_exchange Scenario.partial_json
           [("status"%string, PStr "partial"); ("content"%string, PStr "maybe")]
           (PStr "partial") (PStr "maybe"));
    [discriminate | reflexivity | reflexivity | reflexivity | reflexivity
    | discriminate].
Defined.

(** ** The translation step and the language tag *)

Section TranslateFacts.

Context (env : Env).


End TranslateFacts.


